(** * Prescription reader: extraction, grouping and fan-out stages

    A shallow embedding of the pipeline of [streamlit_demo_0.py] (and of the
    interpretation and verification helpers of its earlier variants
    [v1_async_interpretation.py] and [v2_adding_google_search_on_v1.py]),
    together with the properties of the specification that concern them.

    Conventions of the model.
    - Python text is a list of characters.  Characters are the code points
      U+0000..U+00FF (type [ascii]); the classes [\d], [\s] and the
      whitespace removed by [str.strip] are the ones Python 3 uses on that
      range.
    - Python integers are [Z]; [int(...)] of a run of decimal digits is
      total (the interpreter's optional limit on the number of digits
      accepted by [int] is not modelled).
    - A call of the generative model is an oracle from requests to outcomes:
      it returns a text or raises, and within a run equal requests have
      equal outcomes.  A reply that carries no text ([response.text] is
      [None]) is not modelled: the properties below are about runs in which
      every reply that arrives has a text.
    - A sampling temperature is kept as an exact decimal, in tenths: the
      source computes [0.7 + i * 0.2] in binary floating point. *)

From Stdlib Require Import ZArith Ascii String List DecimalString DecimalPos Lia Permutation.
From stdpp Require Import base option list sorting gmap.

Open Scope Z_scope.
Open Scope list_scope.

(** ** Text *)

Module Text.

Abbreviation str := (list ascii).

(** A source literal. *)
Definition lit (s : string) : str := list_ascii_of_string s.

Definition code (c : ascii) : N := N_of_ascii c.

Definition newline : ascii := ascii_of_N 10.

(** [\d] : the decimal digits. *)
Definition is_digit (c : ascii) : bool :=
  ((48 <=? code c) && (code c <=? 57))%N.

(** [\s], and the characters [str.strip()] removes: TAB, LF, VT, FF, CR,
    FS, GS, RS, US, SPACE, NEL and NBSP. *)
Definition is_space (c : ascii) : bool :=
  (((9 <=? code c) && (code c <=? 13))
   || ((28 <=? code c) && (code c <=? 32))
   || (code c =? 133) || (code c =? 160))%N.

(** [.] without DOTALL : anything but a line feed. *)
Definition not_newline (c : ascii) : bool := negb (Ascii.eqb c newline).

Definition is_char (a : ascii) (c : ascii) : bool := Ascii.eqb c a.

(** The longest prefix of [s] made of characters of class [p], and what
    follows it. *)
Fixpoint take_while (p : ascii -> bool) (s : str) : str :=
  match s with
  | c :: s' => if p c then c :: take_while p s' else []
  | [] => []
  end.

Fixpoint drop_while (p : ascii -> bool) (s : str) : str :=
  match s with
  | c :: s' => if p c then drop_while p s' else s
  | [] => []
  end.

(** [s.lstrip()], [s.rstrip()] and [s.strip()]. *)
Definition lstrip (s : str) : str := drop_while is_space s.
Definition rstrip (s : str) : str := rev (drop_while is_space (rev s)).
Definition strip (s : str) : str := rstrip (lstrip s).

(** [s.split("\n")] : the pieces between line feeds; never empty. *)
Fixpoint split_lines (s : str) : list str :=
  match s with
  | [] => [[]]
  | c :: s' =>
      if Ascii.eqb c newline then [] :: split_lines s'
      else match split_lines s' with
           | l :: ls => (c :: l) :: ls
           | [] => [[c]]
           end
  end.

(** [sep.join(parts)]. *)
Fixpoint join (sep : str) (parts : list str) : str :=
  match parts with
  | [] => []
  | [p] => p
  | p :: ps => p ++ sep ++ join sep ps
  end.

(** [int(s)] on a run of decimal digits. *)
Definition digit_value (c : ascii) : Z := Z.of_N (code c) - 48.
Definition int_of_digits (s : str) : Z :=
  fold_left (fun acc c => 10 * acc + digit_value c) s 0.

(** [str(z)] / [f"{z}"] for an integer. *)
Definition str_of_int (z : Z) : str :=
  lit (NilZero.string_of_int (Z.to_int z)).

(** [a <= b] on text: lexicographic by code point. *)
Fixpoint str_leb (a b : str) : bool :=
  match a, b with
  | [], _ => true
  | _ :: _, [] => false
  | x :: a', y :: b' =>
      if (code x <? code y)%N then true
      else if (code y <? code x)%N then false
      else str_leb a' b'
  end.

End Text.
Import Text.

(** ** Regular expressions, by backtracking

    The combinators below are the pieces of a backtracking matcher, applied
    to the rest of the subject and to the continuation of the pattern.  A
    continuation that answers [None] makes the quantifier try its next
    choice, in the order [re] does: a greedy quantifier from the longest
    repetition down, a lazy one from the shortest up. *)

Module Regex.
Section Combinators.
Context {R : Type}.

(** One character of the class [p]. *)
Definition one (p : ascii -> bool) (s : str) (k : str -> option R) : option R :=
  match s with
  | c :: s' => if p c then k s' else None
  | [] => None
  end.

(** [p*] : the continuation receives the repetition and the rest. *)
Fixpoint star_greedy (p : ascii -> bool) (s : str)
    (k : str -> str -> option R) : option R :=
  match s with
  | c :: s' =>
      if p c then
        match star_greedy p s' (fun m r => k (c :: m) r) with
        | Some x => Some x
        | None => k [] s
        end
      else k [] s
  | [] => k [] []
  end.

(** [p+] *)
Definition plus_greedy (p : ascii -> bool) (s : str)
    (k : str -> str -> option R) : option R :=
  match s with
  | c :: s' => if p c then star_greedy p s' (fun m r => k (c :: m) r) else None
  | [] => None
  end.

(** [p*?] *)
Fixpoint star_lazy (p : ascii -> bool) (s : str)
    (k : str -> str -> option R) : option R :=
  match k [] s with
  | Some x => Some x
  | None =>
      match s with
      | c :: s' => if p c then star_lazy p s' (fun m r => k (c :: m) r) else None
      | [] => None
      end
  end.
End Combinators.

(** [re.search(r"^\d+\.\s+(.*?):\s*(\d+)%", line)] : groups 1 and 2 of the
    match.  The pattern starts with [^] and is compiled without MULTILINE,
    so the search can only succeed at the start of the subject. *)
Definition candidate_re (line : str) : option (str * str) :=
  plus_greedy is_digit line (fun _ s1 =>
  one (is_char ".") s1 (fun s2 =>
  plus_greedy is_space s2 (fun _ s3 =>
  star_lazy not_newline s3 (fun g1 s4 =>
  one (is_char ":") s4 (fun s5 =>
  star_greedy is_space s5 (fun _ s6 =>
  plus_greedy is_digit s6 (fun g2 s7 =>
  one (is_char "%") s7 (fun _ => Some (g1, g2))))))))).

(** [re.search(r"^(\d+)\.", line)] : group 1 of the match. *)
Definition position_re (line : str) : option str :=
  plus_greedy is_digit line (fun g1 s1 =>
  one (is_char ".") s1 (fun _ => Some g1)).

End Regex.
Import Regex.

(** ** Candidates *)

Record candidate := Candidate {
  name : str;
  confidence : Z;
  position : Z
}.

(** The body of the inner loop of [extract_medicine_candidates]: what one
    line appends to [medicine_candidates]. *)
Definition candidate_of_line (line : str) : option candidate :=
  match candidate_re line with
  | Some (g1, g2) =>
      let medicine_name := strip g1 in
      let confidence := int_of_digits g2 in
      let position :=
        match position_re line with
        | Some d => int_of_digits d
        | None => 0
        end in
      Some (Candidate medicine_name confidence position)
  | None => None
  end.

Definition extract_medicine_candidates (interpretations : list str) : list candidate :=
  fold_left (fun medicine_candidates interpretation =>
    let lines := split_lines (strip interpretation) in
    fold_left (fun medicine_candidates line =>
      match candidate_of_line line with
      | Some c => medicine_candidates ++ [c]
      | None => medicine_candidates
      end) lines medicine_candidates)
    interpretations [].

(** ** Sorting

    [list.sort] and [sorted] are stable and compare with [<] only: an
    element stays in front of the later elements it is not greater than.
    Insertion from the right end does exactly that, so it returns the list
    a stable sort returns. *)

Section Sort.
Context {A : Type} (leb : A -> A -> bool).

Fixpoint insert_sorted (x : A) (l : list A) : list A :=
  match l with
  | [] => [x]
  | y :: l' => if leb x y then x :: l else y :: insert_sorted x l'
  end.

Definition sort (l : list A) : list A := foldr insert_sorted [] l.
End Sort.

(** [a <= b] by a key, as [sort(key=...)] compares. *)
Definition key_leb {A} (key : A -> Z) (a b : A) : bool := key a <=? key b.

(** ** Grouping *)

(** An element of [formatted_groups]: [(position, group_text, group)]. *)
Definition group : Type := Z * str * list candidate.

Definition group_position (g : group) : Z := g.1.1.
Definition group_text (g : group) : str := g.1.2.
Definition group_members (g : group) : list candidate := g.2.

(** [f"{med['name']}: {med['confidence']}%"] *)
Definition medicine_text (med : candidate) : str :=
  name med ++ lit ": " ++ str_of_int (confidence med) ++ lit "%".

(** The [defaultdict(list)] filled by the first loop. *)
Definition position_groups_of (medicine_candidates : list candidate)
    : gmap Z (list candidate) :=
  fold_left (fun position_groups candidate =>
      <[position candidate :=
          default [] (position_groups !! position candidate) ++ [candidate]]>
        position_groups)
    medicine_candidates ∅.

(** [medicine_candidates.sort(key=lambda x: x["position"])] *)
Definition sort_by_position (medicine_candidates : list candidate) : list candidate :=
  sort (fun a b => position a <=? position b) medicine_candidates.

Definition group_similar_medicines (medicine_candidates : list candidate) : list group :=
  let medicine_candidates := sort_by_position medicine_candidates in
  let position_groups := position_groups_of medicine_candidates in
  map (fun position =>
      let group := default [] (position_groups !! position) in
      let group_text := lit "Medicine " ++ str_of_int position ++ lit ": [" in
      let medicine_texts := map medicine_text group in
      let group_text := group_text ++ join (lit ", ") medicine_texts ++ lit "]" in
      (position, group_text, group))
    (sort Z.leb (map fst (map_to_list position_groups))).

(** ** The model service and the page

    A request to [client.models.generate_content].  The prose of the three
    prompt templates is fixed in the source; the contents of a request are
    kept as the template used and the values interpolated in it. *)

Definition image : Type := list Byte.byte.

Inductive contents :=
| initial_prompt (img : image)
    (* [[initial_prompt, image]] *)
| verification_prompt (position : Z) (group_text : str)
    (* the f-string built for one group by [verify_medicine_groups] *)
| final_prompt (formatted_results : str)
    (* the final template with [{VERIFICATION_RESULTS}] replaced *)
| name_prompt (medicine_name : str).
    (* the f-string built by [verify_medicine_name] in the later variants *)

Record request := Request {
  req_contents : contents;
  req_search : bool;        (* [tools=[google_search_tool]] *)
  req_temperature : Z       (* in tenths *)
}.

Inductive exn :=
| ValueError (message : str)
| ApiError (message : str).

(** [str(e)] *)
Definition exn_str (e : exn) : str :=
  match e with ValueError m => m | ApiError m => m end.

(** What a call of the model does: it returns [response.text], a text, or
    raises.  A reply without text is outside the model. *)
Inductive outcome :=
| Returned (text : str)
| Raised (e : exn).

(** A piece of a formatted message: literal text, an integer, a temperature
    (printed by the source from a float, with one decimal or in full; the
    model keeps the value, not the digits) or an elapsed time. *)
Inductive part :=
| Txt (s : str)
| Num (z : Z)
| Temp (t : Z)
| Elapsed.

(** What a run does that can be observed: model requests and calls of the
    page. *)
Inductive event :=
| generate_content (r : request)
| st_write (m : list part)
| st_error (m : list part)
| st_warning (m : list part)
| st_code (s : str)
| st_expander (title : str).

(** Computations that log events and may raise. *)
Inductive result (A : Type) :=
| Ret (a : A)
| Exc (e : exn).
Arguments Ret {A} a.
Arguments Exc {A} e.

Definition M (A : Type) : Type := list event * result A.

Definition ret {A} (a : A) : M A := ([], Ret a).
Definition raise {A} (e : exn) : M A := ([], Exc e).
Definition emit (e : event) : M unit := ([e], Ret tt).
Definition bind {A B} (m : M A) (f : A -> M B) : M B :=
  match m with
  | (t, Ret a) => let '(t', r) := f a in (t ++ t', r)
  | (t, Exc e) => (t, Exc e)
  end.

Notation "x <- m ;; k" := (bind m (fun x => k))
  (at level 100, m at next level, right associativity).
Notation "m ;;; k" := (bind m (fun _ => k))
  (at level 100, right associativity).

Fixpoint for_each {A} (l : list A) (body : A -> M unit) : M unit :=
  match l with
  | [] => ret tt
  | x :: l' => body x ;;; for_each l' body
  end.

(** A loop that threads an accumulator. *)
Fixpoint for_fold {A S} (l : list A) (acc : S) (body : S -> A -> M S) : M S :=
  match l with
  | [] => ret acc
  | x :: l' => acc' <- body acc x ;; for_fold l' acc' body
  end.

Definition trace {A} (m : M A) : list event := m.1.
Definition value {A} (m : M A) : result A := m.2.

(** The requests of a trace, in the order they were issued. *)
Definition requests (t : list event) : list request :=
  omap (fun e => match e with generate_content r => Some r | _ => None end) t.

(** *** Thread pools

    [with ThreadPoolExecutor(max_workers=n) as executor:] refuses [n <= 0].
    A submitted task runs once; what it returns or raises is kept by its
    future.  The requests of the tasks are logged in submission order.
    [as_completed] yields every future once, in an order the scheduler
    chooses: the order is an argument, a list of indices of futures. *)

Definition thread_pool_executor {A} (max_workers : Z) (body : M A) : M A :=
  if max_workers <=? 0
  then raise (ValueError (lit "max_workers must be greater than 0"))
  else body.

Definition submit {A} (task : M A) : M (result A) :=
  (trace task, Ret (value task)).

Fixpoint submit_all {K A} (tasks : list (K * M A)) : M (list (K * result A)) :=
  match tasks with
  | [] => ret []
  | (key, task) :: rest =>
      future <- submit task ;;
      futures <- submit_all rest ;;
      ret ((key, future) :: futures)
  end.

Definition as_completed {K A} (futures : list (K * result A)) (completion : list nat)
    : list (K * result A) :=
  omap (fun i => futures !! i) completion.

Definition nl : str := [newline].

(** ** Interpretation fan-out *)

Section Pipeline.
Variable svc : request -> outcome.

(** [client.models.generate_content(...).text] *)
Definition call_model (r : request) : M str :=
  emit (generate_content r) ;;;
  match svc r with
  | Returned text => ret text
  | Raised e => raise e
  end.

Definition generate_interpretation (temperature : Z) (img : image) : M str :=
  call_model (Request (initial_prompt img) false temperature).

(** [0.7 + (i * 0.2)], in tenths. *)
Definition temperature_of_pass (i : nat) : Z := 7 + Z.of_nat i * 2.

(** [(temp, result) <= (temp', result')] : how [results.sort()] compares. *)
Definition tuple_leb (a b : Z * str) : bool :=
  if a.1 <? b.1 then true
  else if b.1 <? a.1 then false
  else str_leb a.2 b.2.

Definition run_parallel_interpretations (img : image) (num_passes : nat)
    (completion : list nat) : M (list str) :=
  let temperatures := map temperature_of_pass (seq 0 num_passes) in
  results <-
    thread_pool_executor (Z.of_nat num_passes) (
      future_to_temp <-
        submit_all (map (fun temp => (temp, generate_interpretation temp img))
                        temperatures) ;;
      for_fold (as_completed future_to_temp completion) []
        (fun results '(temp, future) =>
           match future with
           | Ret result =>
               emit (st_write [Txt (lit "Completed interpretation with temperature ");
                               Temp temp]) ;;;
               ret (results ++ [(temp, result)])
           | Exc e =>
               emit (st_error [Txt (lit "Error processing temperature "); Temp temp;
                               Txt (lit ": "); Txt (exn_str e)]) ;;;
               ret results
           end)) ;;
  ret (map snd (sort tuple_leb results)).

(** ** Verification fan-out *)

(** The task submitted for one prompt [p = (position, prompt)]. *)
Definition verify_task (p : Z * contents) : M (Z * str) :=
  text <- call_model (Request p.2 true 2) ;;
  ret (p.1, text).

Definition verify_medicine_groups (medicine_groups : list group)
    (completion : list nat) : M (list (Z * str)) :=
  let verification_prompts :=
    map (fun g => (group_position g,
                   verification_prompt (group_position g) (group_text g)))
        medicine_groups in
  verification_results <-
    thread_pool_executor (Z.min 6 (Z.of_nat (length verification_prompts))) (
      future_to_position <-
        submit_all (map (fun prompt => (prompt, verify_task prompt))
                        verification_prompts) ;;
      for_fold (as_completed future_to_position completion) []
        (fun verification_results '(prompt, future) =>
           match future with
           | Ret (position, result) =>
               emit (st_write [Txt (lit "Verified medicine at position ");
                               Num position]) ;;;
               ret (verification_results ++ [(position, result)])
           | Exc e =>
               emit (st_error [Txt (lit "Error verifying medicine at position ");
                               Num prompt.1; Txt (lit ": "); Txt (exn_str e)]) ;;;
               ret (verification_results ++ [(prompt.1, lit "Error: " ++ exn_str e)])
           end)) ;;
  ret (sort (fun a b => a.1 <=? b.1) verification_results).

(** ** Final synthesis *)

Definition format_final_results (verification_results : list (Z * str)) : M str :=
  let formatted_results :=
    fold_left (fun formatted_results '(position, result) =>
        formatted_results
          ++ (nl ++ lit "--- Medicine Position " ++ str_of_int position
                 ++ lit " ---" ++ nl)
          ++ (result ++ nl)
          ++ (repeat "-"%char 40 ++ nl))
      verification_results [] in
  call_model (Request (final_prompt formatted_results) true 1).

(** ** The page *)

Definition no_medicines_message : str :=
  lit "No medicines were identified in the prescription.".

Definition no_medicines_report : str :=
  lit "```" ++ nl ++ lit "FINAL PRESCRIPTION MEDICINES:" ++ nl ++ nl
    ++ no_medicines_message ++ nl ++ lit "```".

(** [enumerate(l, start)] *)
Fixpoint enumerate {A} (l : list A) (start : Z) : list (Z * A) :=
  match l with
  | [] => []
  | x :: l' => (start, x) :: enumerate l' (start + 1)
  end.

(** [main]: [uploaded_file] is the upload if there is one, [button] what
    [st.button("Process Prescription")] answers, and the two orders are
    the completion orders of the two pools. *)
Definition main (uploaded_file : option image) (button : bool)
    (completion_i completion_v : list nat) : M unit :=
  match uploaded_file with
  | None => emit (st_warning [Txt (lit "Please upload an image to proceed.")])
  | Some img =>
    if button then
      emit (st_write [Txt (lit "Running multiple interpretation passes in parallel...")]) ;;;
      all_interpretations <- run_parallel_interpretations img 5 completion_i ;;
      emit (st_write [Txt (lit "All interpretation passes completed in "); Elapsed;
                      Txt (lit " seconds")]) ;;;
      emit (st_expander (lit "View Interpretation Passes")) ;;;
      for_each (enumerate all_interpretations 1) (fun '(i, interpretation) =>
        emit (st_write [Txt (lit "### Pass "); Num i; Txt (lit " Interpretation")]) ;;;
        emit (st_code interpretation)) ;;;
      let medicine_candidates := extract_medicine_candidates all_interpretations in
      emit (st_write [Txt (lit "Extracted ");
                      Num (Z.of_nat (length medicine_candidates));
                      Txt (lit " medicine candidates")]) ;;;
      match medicine_candidates with
      | [] =>
          emit (st_error [Txt no_medicines_message]) ;;;
          let final_result := no_medicines_report in
          emit (st_write [Txt (lit "### Final Prescription Medicines")]) ;;;
          emit (st_code final_result) ;;;
          emit (st_write [Txt (lit "Total processing time: "); Elapsed;
                          Txt (lit " seconds")])
      | _ :: _ =>
          let medicine_groups := group_similar_medicines medicine_candidates in
          emit (st_write [Txt (lit "Grouped into ");
                          Num (Z.of_nat (length medicine_groups));
                          Txt (lit " medicine positions")]) ;;;
          emit (st_expander (lit "View Medicine Interpretation Groups")) ;;;
          for_each medicine_groups (fun g => emit (st_write [Txt (group_text g)])) ;;;
          emit (st_write [Txt (lit "Verifying medicine groups with Google Search (this may take some time)...")]) ;;;
          verification_results <- verify_medicine_groups medicine_groups completion_v ;;
          emit (st_write [Txt (lit "Medicine verification completed in "); Elapsed;
                          Txt (lit " seconds")]) ;;;
          emit (st_write [Txt (lit "Generating final analysis with verified medicine names...")]) ;;;
          final_result <- format_final_results verification_results ;;
          emit (st_write [Txt (lit "Final analysis completed in "); Elapsed;
                          Txt (lit " seconds")]) ;;;
          emit (st_write [Txt (lit "Total processing time: "); Elapsed;
                          Txt (lit " seconds")]) ;;;
          emit (st_write [Txt (lit "### Final Prescription Medicines")]) ;;;
          emit (st_code final_result)
      end
    else ret tt
  end.
End Pipeline.

(** ** Earlier variants of the fan-outs *)

(** [await asyncio.gather( *tasks)] : every task is started, the results come
    in the order of the tasks, and an exception of a task reaches the caller:
    the one raised first in time; the model, which has no clock, hands on
    the one of the first failing task in the order of the tasks. *)
Fixpoint gather {A} (tasks : list (M A)) : M (list A) :=
  match tasks with
  | [] => ret []
  | task :: rest =>
      let '(t, r) := task in
      let '(ts, rs) := gather rest in
      (t ++ ts,
       match r, rs with
       | Ret a, Ret l => Ret (a :: l)
       | Exc e, _ => Exc e
       | Ret _, Exc e => Exc e
       end)
  end.

(** [v1_async_interpretation.py] *)
Module V1.
Section V1.
Variable svc : request -> outcome.

(** The request is built with [temperature=0.2]; the argument is not used. *)
Definition generate_interpretation (temperature : Z) (img : image) : M str :=
  call_model svc (Request (initial_prompt img) false 2).

Definition run_parallel_interpretations (img : image) (num_passes : nat)
    : M (list str) :=
  let temperatures := map temperature_of_pass (seq 0 num_passes) in
  let tasks := map (fun temp => generate_interpretation temp img) temperatures in
  gather tasks.
End V1.
End V1.

(** [v2_adding_google_search_on_v1.py], first program. *)
Module V2.
Section V2.
Variable svc : request -> outcome.

Definition generate_interpretation (temperature : Z) (img : image) : M str :=
  call_model svc (Request (initial_prompt img) false temperature).

Definition run_parallel_interpretations (img : image) (num_passes : nat)
    : M (list str) :=
  let temperatures := map temperature_of_pass (seq 0 num_passes) in
  let tasks := map (fun temp => generate_interpretation temp img) temperatures in
  gather tasks.

(** [verify_medicine_name]: the call is inside [try]; an exception becomes
    the text returned. *)
Definition verify_medicine_name (medicine_name : str) : M str :=
  let r := Request (name_prompt medicine_name) true 1 in
  emit (generate_content r) ;;;
  match svc r with
  | Returned text => ret text
  | Raised e => ret (lit "Error verifying medicine: " ++ exn_str e)
  end.
End V2.
End V2.

(** [v2_adding_google_search_on_v1.py], second program (parallel search). *)
Module V3.
Section V3.
Variable svc : request -> outcome.

Definition generate_interpretation (temperature : Z) (img : image) : M str :=
  call_model svc (Request (initial_prompt img) false temperature).

(** Every pass is started with the fixed temperature 0.2. *)
Definition run_parallel_interpretations (img : image) (num_passes : nat)
    : M (list str) :=
  let tasks := map (fun _ => generate_interpretation 2 img) (seq 0 num_passes) in
  gather tasks.
End V3.
End V3.

(** ** What the specification says of a line

    [line_format line n ws1 text ws2 pct rest] : the line reads an integer
    [n], a period, whitespace [ws1], the text [text], a colon, optional
    whitespace [ws2], an integer [pct], a percent sign, and anything
    [rest]. *)

Definition all_of (p : ascii -> bool) (s : str) : Prop := forallb p s = true.

Record line_format (line n ws1 text ws2 pct rest : str) : Prop := LineFormat {
  lf_line : line = n ++ "."%char :: ws1 ++ text ++ ":"%char :: ws2 ++ pct ++ "%"%char :: rest;
  lf_int : n <> [] /\ all_of is_digit n;
  lf_gap : ws1 <> [] /\ all_of is_space ws1;
  lf_text : all_of not_newline text;
  lf_pad : all_of is_space ws2;
  lf_pct : pct <> [] /\ all_of is_digit pct
}.

Definition matches_format (line : str) : Prop :=
  exists n ws1 text ws2 pct rest, line_format line n ws1 text ws2 pct rest.

(** [text] is the shortest text with which [line] has the format: the
    whitespace after the period is all skipped, and the colon is the first
    one a percentage follows. *)
Definition shortest_text (line text : str) : Prop :=
  forall n ws1 text' ws2 pct rest,
    line_format line n ws1 text' ws2 pct rest -> (length text <= length text')%nat.

(** The candidate read off a line of that format. *)
Definition reads (line : str) (c : candidate) : Prop :=
  exists n ws1 text ws2 pct rest,
    line_format line n ws1 text ws2 pct rest
    /\ shortest_text line text
    /\ position c = int_of_digits n
    /\ name c = strip text
    /\ confidence c = int_of_digits pct.

(** One candidate for each line of the format, none for the others. *)
Inductive extracted : list str -> list candidate -> Prop :=
| extracted_nil : extracted [] []
| extracted_match line c lines cs :
    matches_format line -> reads line c -> extracted lines cs ->
    extracted (line :: lines) (c :: cs)
| extracted_skip line lines cs :
    ~ matches_format line -> extracted lines cs ->
    extracted (line :: lines) cs.

(** The lines the extraction scans: every interpretation text is stripped
    of its leading and trailing whitespace, then cut at the line feeds. *)
Definition lines_of (interpretations : list str) : list str :=
  flat_map (fun interpretation => split_lines (strip interpretation)) interpretations.

(** The lines of the interpretation texts as they stand. *)
Definition text_lines_of (interpretations : list str) : list str :=
  flat_map split_lines interpretations.

(** What [\s*(\d+)%] finds after the colon: group 2, if it matches. *)
Definition percent_tail (s5 : str) : option str :=
  let s6 := drop_while is_space s5 in
  match take_while is_digit s6, drop_while is_digit s6 with
  | (_ :: _) as g2, c :: _ => if is_char "%" c then Some g2 else None
  | _, _ => None
  end.

(** The pattern from its fourth item on: [(.*?):\s*(\d+)%]. *)
Definition name_scan (s3 : str) : option (str * str) :=
  star_lazy not_newline s3 (fun g1 s4 =>
  one (is_char ":") s4 (fun s5 =>
  option_map (pair g1) (percent_tail s5))).

(** The text the specification gives a group:
    [Medicine <position>: [<name1>: <conf1>%, <name2>: <conf2>%, ...]]. *)
Definition rendered_group (p : Z) (members : list candidate) : str :=
  lit "Medicine " ++ str_of_int p ++ lit ": ["
    ++ join (lit ", ")
         (map (fun c => name c ++ lit ": " ++ str_of_int (confidence c) ++ lit "%") members)
    ++ lit "]".

(** The candidates of a list that carry the position [p], in their order. *)
Definition at_position (p : Z) (l : list candidate) : list candidate :=
  filter (fun c => position c = p) l.

(** The request of pass [i] of the interpretation fan-out. *)
Definition interpretation_request (img : image) (i : nat) : request :=
  Request (initial_prompt img) false (temperature_of_pass i).

(** The text of a call that succeeds. *)
Definition successful_text (svc : request -> outcome) (r : request) : option str :=
  match svc r with
  | Returned text => Some text
  | Raised _ => None
  end.

Definition tuple_le (a b : Z * str) : Prop := tuple_leb a b = true.

Definition max_workers_error : exn :=
  ValueError (lit "max_workers must be greater than 0").

(** What the loop over the completed futures keeps of a future. *)
Definition kept (f : Z * result str) : option (Z * str) :=
  match f.2 with
  | Ret result => Some (f.1, result)
  | Exc _ => None
  end.

(** What the page shows when a future of the interpretation pool completes. *)
Definition interpretation_notice (f : Z * result str) : list event :=
  match f.2 with
  | Ret _ =>
      [st_write [Txt (lit "Completed interpretation with temperature "); Temp f.1]]
  | Exc e =>
      [st_error [Txt (lit "Error processing temperature "); Temp f.1;
                 Txt (lit ": "); Txt (exn_str e)]]
  end.

(** The futures of the interpretation pool, in submission order. *)
Definition interpretation_futures_of (svc : request -> outcome) (img : image)
    (n : nat) : list (Z * result str) :=
  map (fun i => (temperature_of_pass i,
                 match svc (interpretation_request img i) with
                 | Returned text => Ret text
                 | Raised e => Exc e
                 end)) (seq 0 n).

(** A service for the examples: the pass at temperature 0.9 and the
    verification of position 2 fail, the other calls answer. *)
Definition example_service (r : request) : outcome :=
  match req_contents r with
  | initial_prompt _ =>
      if req_temperature r =? 9 then Raised (ApiError (lit "unavailable"))
      else Returned (lit "1. Napa: 80%" ++ nl ++ lit "2. Seclo: 70%")
  | verification_prompt p _ =>
      if p =? 2 then Raised (ApiError (lit "quota exceeded"))
      else Returned (lit "Napa 500 mg")
  | final_prompt _ => Returned (lit "FINAL PRESCRIPTION MEDICINES:")
  | name_prompt _ => Raised (ApiError (lit "unavailable"))
  end.

(** The same service with a final synthesis that fails. *)
Definition final_failure_service (r : request) : outcome :=
  match req_contents r with
  | final_prompt _ => Raised (ApiError (lit "unavailable"))
  | _ => example_service r
  end.

(** The request that verifies a group. *)
Definition verification_request (g : group) : request :=
  Request (verification_prompt (group_position g) (group_text g)) true 2.

(** The entry a group has in the verification results: its position with
    the answer of the model, or with the captured error. *)
Definition verification_entry (svc : request -> outcome) (g : group) : Z * str :=
  (group_position g,
   match svc (verification_request g) with
   | Returned text => text
   | Raised e => lit "Error: " ++ exn_str e
   end).

(** The future of a group in the verification pool, with its prompt. *)
Definition verification_future (svc : request -> outcome) (g : group)
    : (Z * contents) * result (Z * str) :=
  ((group_position g, verification_prompt (group_position g) (group_text g)),
   match svc (verification_request g) with
   | Returned text => Ret (group_position g, text)
   | Raised e => Exc e
   end).

(** What the loop over the completed futures appends for a future. *)
Definition collected (f : (Z * contents) * result (Z * str)) : Z * str :=
  match f.2 with
  | Ret (position, result) => (position, result)
  | Exc e => (f.1.1, lit "Error: " ++ exn_str e)
  end.

Definition verification_notice (f : (Z * contents) * result (Z * str)) : list event :=
  match f.2 with
  | Ret (position, _) =>
      [st_write [Txt (lit "Verified medicine at position "); Num position]]
  | Exc e =>
      [st_error [Txt (lit "Error verifying medicine at position "); Num f.1.1;
                 Txt (lit ": "); Txt (exn_str e)]]
  end.

Definition by_position (a b : Z * str) : bool := a.1 <=? b.1.

(** The line the prompt asks the model for, written for a candidate:
    [<position>. <name>: <confidence>%]. *)
Definition candidate_line (c : candidate) : str :=
  str_of_int (position c) ++ lit ". " ++ name c ++ lit ": "
    ++ str_of_int (confidence c) ++ lit "%".

Definition not_colon (c : ascii) : bool := negb (is_char ":" c).

(** A line that begins with a decimal digit. *)
Definition begins_with_digit (line : str) : bool :=
  match line with
  | c :: _ => is_digit c
  | [] => false
  end.

(** The text [format_final_results] puts in place of
    [{VERIFICATION_RESULTS}], and the request it issues. *)
Definition formatted_results_of (verification_results : list (Z * str)) : str :=
  fold_left (fun formatted_results '(position, result) =>
      formatted_results
        ++ (nl ++ lit "--- Medicine Position " ++ str_of_int position
               ++ lit " ---" ++ nl)
        ++ (result ++ nl)
        ++ (repeat "-"%char 40 ++ nl))
    verification_results [].

Definition final_request (verification_results : list (Z * str)) : request :=
  Request (final_prompt (formatted_results_of verification_results)) true 1.

(** What the interpretation pool hands on when its futures complete in the
    order [completion]. *)
Definition collected_interpretations (svc : request -> outcome) (img : image)
    (completion : list nat) : list str :=
  map snd (sort tuple_leb
             (omap kept (as_completed (interpretation_futures_of svc img 5) completion))).

(** What the verification pool hands on. *)
Definition collected_verifications (svc : request -> outcome)
    (medicine_groups : list group) (completion : list nat) : list (Z * str) :=
  sort by_position
    (map collected
       (as_completed (map (verification_future svc) medicine_groups) completion)).

(** The texts of the passes that succeed, in the order of the passes. *)
Definition successful_interpretations (svc : request -> outcome) (img : image)
    (n : nat) : list str :=
  omap (fun i => successful_text svc (interpretation_request img i)) (seq 0 n).

(** ** Names from a consolidated list (later variants)

    [extract_medicines_from_consolidated] of
    [v2_adding_google_search_on_v1.py] (both programs). *)

(** A literal piece of a pattern. *)
Fixpoint literal {R} (w : str) (s : str) (k : str -> option R) : option R :=
  match w with
  | [] => k s
  | a :: w' => one (is_char a) s (fun s' => literal w' s' k)
  end.

(** [[^\n\(]] : anything but a line feed and an opening parenthesis. *)
Definition name_char (c : ascii) : bool :=
  negb (Ascii.eqb c newline) && negb (Ascii.eqb c "(").

(** The pattern [Medicine \d+:\s*\n\s*- Name: ([^\n\(]+)] tried at the start
    of [s] : group 1 and what follows the match. *)
Definition medicine_name_re (s : str) : option (str * str) :=
  literal (lit "Medicine ") s (fun s1 =>
  plus_greedy is_digit s1 (fun _ s2 =>
  one (is_char ":") s2 (fun s3 =>
  star_greedy is_space s3 (fun _ s4 =>
  one (is_char newline) s4 (fun s5 =>
  star_greedy is_space s5 (fun _ s6 =>
  literal (lit "- Name: ") s6 (fun s7 =>
  plus_greedy name_char s7 (fun g1 s8 => Some (g1, s8))))))))).

(** [re.findall(pattern, text)] : the matches are looked for from left to
    right and do not overlap; the next [skip] characters belong to the match
    found last. *)
Fixpoint findall_from (skip : nat) (s : str) : list str :=
  match s with
  | [] => []
  | _ :: s' =>
      match skip with
      | S skip' => findall_from skip' s'
      | O =>
          match medicine_name_re s with
          | Some (g1, rest) =>
              g1 :: findall_from (length s - length rest - 1) s'
          | None => findall_from 0 s'
          end
      end
  end.

Definition extract_medicines_from_consolidated (consolidated_text : str) : list str :=
  let medicine_names := findall_from 0 consolidated_text in
  map strip medicine_names.

(** One entry of a consolidated list as the consolidation prompt asks for
    it: the heading, the line of the name, and the lines that follow. *)
Definition consolidated_entry (entry : Z * str * str) : str :=
  lit "Medicine " ++ str_of_int entry.1.1 ++ lit ":" ++ nl
    ++ lit "- Name: " ++ entry.1.2 ++ nl ++ entry.2.

Definition consolidated_list (entries : list (Z * str * str)) : str :=
  flat_map consolidated_entry entries.

Definition not_capital_m (c : ascii) : bool := negb (is_char "M" c).

(** * Properties *)

(** ** Text *)

Lemma take_drop_while p s : take_while p s ++ drop_while p s = s.
Proof.
  induction s as [|c s IH]; simpl; [done|].
  destruct (p c); simpl; [by rewrite IH | done].
Qed.

Lemma all_of_take_while p s : all_of p (take_while p s).
Proof.
  unfold all_of. induction s as [|c s IH]; simpl; [done|].
  destruct (p c) eqn:E; simpl; [by rewrite E | done].
Qed.

Lemma all_of_app p a b : all_of p (a ++ b) <-> all_of p a /\ all_of p b.
Proof. unfold all_of. rewrite forallb_app, andb_true_iff. done. Qed.

Lemma all_of_cons p c s : all_of p (c :: s) <-> p c = true /\ all_of p s.
Proof. unfold all_of. simpl. by rewrite andb_true_iff. Qed.

(** A run of [p] followed by a character outside [p] is the longest run. *)
Lemma take_while_stop p a c r :
  all_of p a -> p c = false -> take_while p (a ++ c :: r) = a.
Proof.
  intros Ha Hc. induction a as [|x a IH]; simpl.
  - by rewrite Hc.
  - apply all_of_cons in Ha as [-> Ha]. by rewrite IH.
Qed.

Lemma drop_while_stop p a c r :
  all_of p a -> p c = false -> drop_while p (a ++ c :: r) = c :: r.
Proof.
  intros Ha Hc. induction a as [|x a IH]; simpl.
  - by rewrite Hc.
  - apply all_of_cons in Ha as [-> Ha]. by rewrite IH.
Qed.

Lemma drop_while_all p a r :
  all_of p a -> drop_while p (a ++ r) = drop_while p r.
Proof.
  intros Ha. induction a as [|x a IH]; simpl; [done|].
  apply all_of_cons in Ha as [-> Ha]. by rewrite IH.
Qed.

(** Dropping stops at the latest at a character outside [p]. *)
Lemma drop_while_before p a c r :
  p c = false -> drop_while p (a ++ c :: r) = drop_while p a ++ c :: r.
Proof.
  intros Hc. induction a as [|x a IH]; simpl.
  - by rewrite Hc.
  - destruct (p x); [apply IH | done].
Qed.

Lemma drop_while_head p s c r : drop_while p s = c :: r -> p c = false.
Proof.
  induction s as [|x s IH]; simpl; [done|].
  destruct (p x) eqn:E; [done|]. by intros [= <- _].
Qed.

Lemma take_while_nil p s :
  take_while p s = [] -> drop_while p s = s.
Proof. destruct s as [|c s]; simpl; [done|]. by destruct (p c). Qed.

Lemma digit_not_space c : is_digit c = true -> is_space c = false.
Proof.
  unfold is_digit, is_space. intros H.
  apply andb_true_iff in H as [H1 H2].
  apply N.leb_le in H1. apply N.leb_le in H2.
  repeat (apply orb_false_iff; split);
    try (apply andb_false_iff);
    rewrite ?N.leb_gt, ?N.eqb_neq; lia.
Qed.

Lemma is_char_iff a c : is_char a c = true <-> c = a.
Proof. unfold is_char. apply Ascii.eqb_eq. Qed.

(** ** The matcher *)

Section RegexFacts.
Context {R : Type}.

(** When the pattern cannot go on in front of a character of [p], a greedy
    repetition of [p] can only stop at the end of the run. *)
Lemma star_greedy_max p s (k : str -> str -> option R) :
  (forall m c r, p c = true -> k m (c :: r) = None) ->
  star_greedy p s k = k (take_while p s) (drop_while p s).
Proof.
  revert k. induction s as [|c s IH]; intros k Hk; simpl; [done|].
  destruct (p c) eqn:E; [|done].
  rewrite IH by (intros; by apply Hk).
  destruct (k (c :: take_while p s) (drop_while p s)) eqn:Ek; [done|].
  by apply Hk.
Qed.

Lemma plus_greedy_max p s (k : str -> str -> option R) :
  (forall m c r, p c = true -> k m (c :: r) = None) ->
  plus_greedy p s k =
    match take_while p s with
    | [] => None
    | m => k m (drop_while p s)
    end.
Proof.
  intros Hk. destruct s as [|c s]; simpl; [done|].
  destruct (p c) eqn:E; [|done].
  rewrite star_greedy_max by (intros; by apply Hk). done.
Qed.

Lemma skip_run p s (k : str -> option R) :
  (forall c r, p c = true -> k (c :: r) <> None -> k r <> None) ->
  k s <> None -> k (drop_while p s) <> None.
Proof.
  intros Hk. induction s as [|c s IH]; simpl; [done|].
  destruct (p c) eqn:E; [|done]. intros H. apply IH. by apply (Hk c).
Qed.

(** When giving characters back cannot help the rest of the pattern, the
    repetition keeps the whole run. *)
Lemma star_greedy_skip p s (k : str -> option R) :
  (forall c r, p c = true -> k (c :: r) <> None -> k r <> None) ->
  star_greedy p s (fun _ r => k r) = k (drop_while p s).
Proof.
  intros Hk. induction s as [|c s IH]; simpl; [done|].
  destruct (p c) eqn:E; [|done].
  rewrite IH. destruct (k (drop_while p s)) eqn:Ek; [done|].
  destruct (k (c :: s)) eqn:Ec; [|done].
  exfalso. apply (skip_run p s k Hk); [|done].
  apply (Hk c); [done|]. by rewrite Ec.
Qed.

Lemma plus_greedy_skip p s (k : str -> option R) :
  (forall c r, p c = true -> k (c :: r) <> None -> k r <> None) ->
  plus_greedy p s (fun _ r => k r) =
    match take_while p s with
    | [] => None
    | _ => k (drop_while p s)
    end.
Proof.
  intros Hk. destruct s as [|c s]; simpl; [done|].
  destruct (p c) eqn:E; [|done].
  by rewrite (star_greedy_skip p s k Hk).
Qed.

(** A lazy repetition answers with the first split the rest accepts. *)
Lemma star_lazy_sound p s (k : str -> str -> option R) x :
  star_lazy p s k = Some x ->
  exists m r, s = m ++ r /\ all_of p m /\ k m r = Some x
    /\ forall m' r', s = m' ++ r' -> (length m' < length m)%nat -> k m' r' = None.
Proof.
  revert k. induction s as [|c s IH]; intros k; simpl.
  - destruct (k [] []) eqn:E; [|done]. intros [= ->].
    exists [], []. repeat split; [done|]. simpl. lia.
  - destruct (k [] (c :: s)) eqn:E.
    + intros [= ->]. exists [], (c :: s). repeat split; [done|]. simpl. lia.
    + destruct (p c) eqn:Ep; [|done]. intros H.
      apply IH in H as (m & r & -> & Hm & Hk & Hmin).
      exists (c :: m), r. repeat split; [by apply all_of_cons|done|].
      intros m' r' Heq Hlen. destruct m' as [|c' m'].
      * simpl in Heq. by subst r'.
      * simpl in Heq, Hlen. injection Heq as <- Heq.
        apply (Hmin m' r' Heq). lia.
Qed.

Lemma star_lazy_complete p m r (k : str -> str -> option R) :
  all_of p m -> k m r <> None -> star_lazy p (m ++ r) k <> None.
Proof.
  revert k. induction m as [|c m IH]; intros k Hm Hk.
  - simpl. destruct r; simpl; destruct (k [] _); done.
  - apply all_of_cons in Hm as [Hc Hm]. simpl.
    destruct (k [] (c :: m ++ r)); [done|]. rewrite Hc.
    by apply (IH (fun m r => k (c :: m) r)).
Qed.
End RegexFacts.

Lemma star_lazy_ext {R} p s (k k' : str -> str -> option R) :
  (forall m r, k m r = k' m r) -> star_lazy p s k = star_lazy p s k'.
Proof.
  revert k k'. induction s as [|c s IH]; intros k k' H; simpl; rewrite H; [done|].
  destruct (k' [] (c :: s)); [done|]. destruct (p c); [|done].
  apply IH. intros; apply H.
Qed.

Lemma space_not_digit c : is_space c = true -> is_digit c = false.
Proof.
  intros Hs. destruct (is_digit c) eqn:E; [|done].
  apply digit_not_space in E. congruence.
Qed.

Lemma percent_tail_closed g1 s5 :
  star_greedy is_space s5 (fun _ s6 =>
    plus_greedy is_digit s6 (fun g2 s7 =>
    one (is_char "%") s7 (fun _ => Some (g1, g2))))
  = option_map (pair g1) (percent_tail s5) :> option (str * str).
Proof.
  rewrite star_greedy_max.
  - rewrite plus_greedy_max.
    + unfold percent_tail.
      destruct (take_while is_digit (drop_while is_space s5)) as [|d g2]; [done|].
      destruct (drop_while is_digit (drop_while is_space s5)) as [|c s7]; [done|].
      simpl. by destruct (is_char "%" c).
    + intros m c r Hc. simpl.
      destruct (is_char "%" c) eqn:E; [|done].
      apply is_char_iff in E. by subst c.
  - intros m c r Hc. simpl. by rewrite (space_not_digit c Hc).
Qed.

Lemma name_scan_closed s3 :
  star_lazy not_newline s3 (fun g1 s4 =>
    one (is_char ":") s4 (fun s5 =>
    star_greedy is_space s5 (fun _ s6 =>
    plus_greedy is_digit s6 (fun g2 s7 =>
    one (is_char "%") s7 (fun _ => Some (g1, g2))))))
  = name_scan s3.
Proof.
  apply star_lazy_ext. intros m [|c r]; simpl; [done|].
  destruct (is_char ":" c); [|done]. apply percent_tail_closed.
Qed.

(** What [name_scan] answers: the text up to the first colon that is
    followed by a percentage. *)
Lemma name_scan_sound s3 g1 g2 :
  name_scan s3 = Some (g1, g2) ->
  exists s5, s3 = g1 ++ ":"%char :: s5
    /\ all_of not_newline g1
    /\ percent_tail s5 = Some g2
    /\ forall t s5', s3 = t ++ ":"%char :: s5' -> (length t < length g1)%nat ->
         percent_tail s5' = None.
Proof.
  intros H. apply star_lazy_sound in H as (m & r & -> & Hm & Hk & Hmin).
  destruct r as [|c s5]; [done|]. simpl in Hk.
  destruct (is_char ":" c) eqn:Ec; [|done]. apply is_char_iff in Ec as ->.
  destruct (percent_tail s5) as [g|] eqn:Et; [|done].
  injection Hk as <- <-. exists s5. do 3 (split; [done|]).
  intros t s5' Heq Hlen. specialize (Hmin t _ Heq Hlen). simpl in Hmin.
  by destruct (percent_tail s5').
Qed.

Lemma name_scan_complete t s5 :
  all_of not_newline t -> percent_tail s5 <> None ->
  name_scan (t ++ ":"%char :: s5) <> None.
Proof.
  intros Ht Hp. apply star_lazy_complete; [done|]. simpl.
  by destruct (percent_tail s5).
Qed.

Lemma name_scan_skip c r :
  is_space c = true -> name_scan (c :: r) <> None -> name_scan r <> None.
Proof.
  intros Hc H. destruct (name_scan (c :: r)) as [[g1 g2]|] eqn:E; [|done].
  apply name_scan_sound in E as (s5 & Heq & Hg & Hp & _).
  destruct g1 as [|x g1]; simpl in Heq.
  - injection Heq as -> _. done.
  - injection Heq as -> ->. apply all_of_cons in Hg as [_ Hg].
    apply name_scan_complete; [done|]. by rewrite Hp.
Qed.

Lemma candidate_re_closed line :
  candidate_re line =
    match take_while is_digit line, drop_while is_digit line with
    | _ :: _, c :: s2 =>
        if is_char "." c then
          match take_while is_space s2 with
          | [] => None
          | _ => name_scan (drop_while is_space s2)
          end
        else None
    | _, _ => None
    end.
Proof.
  unfold candidate_re. rewrite plus_greedy_max.
  - destruct (take_while is_digit line) as [|d n]; [done|].
    destruct (drop_while is_digit line) as [|c s2]; [done|]. simpl.
    destruct (is_char "." c); [|done].
    rewrite (plus_greedy_skip is_space s2 (fun s3 =>
      star_lazy not_newline s3 (fun g1 s4 =>
      one (is_char ":") s4 (fun s5 =>
      star_greedy is_space s5 (fun _ s6 =>
      plus_greedy is_digit s6 (fun g2 s7 =>
      one (is_char "%") s7 (fun _ => Some (g1, g2)))))))).
    + by rewrite name_scan_closed.
    + intros c' r. rewrite !name_scan_closed. apply name_scan_skip.
  - intros m c r Hc. simpl. destruct (is_char "." c) eqn:E; [|done].
    apply is_char_iff in E. by subst c.
Qed.

Lemma position_re_closed line :
  position_re line =
    match take_while is_digit line, drop_while is_digit line with
    | (_ :: _) as n, c :: _ => if is_char "." c then Some n else None
    | _, _ => None
    end.
Proof.
  unfold position_re. rewrite plus_greedy_max.
  - destruct (take_while is_digit line) as [|d n]; [done|].
    by destruct (drop_while is_digit line) as [|c s2].
  - intros m c r Hc. simpl. destruct (is_char "." c) eqn:E; [|done].
    apply is_char_iff in E. by subst c.
Qed.

Lemma all_of_drop_while p q s : all_of p s -> all_of p (drop_while q s).
Proof.
  induction s as [|c s IH]; simpl; [done|]. intros H.
  destruct (q c); [|done]. apply all_of_cons in H as [_ H]. by apply IH.
Qed.

Lemma percent_tail_sound s5 g2 :
  percent_tail s5 = Some g2 ->
  exists ws2 rest, s5 = ws2 ++ g2 ++ "%"%char :: rest
    /\ all_of is_space ws2 /\ g2 <> [] /\ all_of is_digit g2.
Proof.
  unfold percent_tail. intros H.
  pose proof (take_drop_while is_space s5) as Hs.
  pose proof (take_drop_while is_digit (drop_while is_space s5)) as Hd.
  pose proof (all_of_take_while is_digit (drop_while is_space s5)) as Hg.
  destruct (take_while is_digit (drop_while is_space s5)) as [|d g]; [done|].
  destruct (drop_while is_digit (drop_while is_space s5)) as [|c rest]; [done|].
  destruct (is_char "%" c) eqn:Ec; [|done]. apply is_char_iff in Ec as ->.
  injection H as <-.
  exists (take_while is_space s5), rest.
  split; [by rewrite Hd|]. split; [apply all_of_take_while|done].
Qed.

Lemma percent_tail_complete ws2 pct rest :
  all_of is_space ws2 -> pct <> [] -> all_of is_digit pct ->
  percent_tail (ws2 ++ pct ++ "%"%char :: rest) = Some pct.
Proof.
  intros Hw Hne Hp. unfold percent_tail.
  destruct pct as [|d pct]; [done|].
  pose proof Hp as Hp'. apply all_of_cons in Hp' as [Hd _].
  rewrite drop_while_all by done.
  replace (drop_while is_space ((d :: pct) ++ "%"%char :: rest))
    with ((d :: pct) ++ "%"%char :: rest)
    by (simpl; by rewrite (digit_not_space d Hd)).
  rewrite take_while_stop, drop_while_stop by done. done.
Qed.

(** A match of the first pattern is a line of the format; its groups are the
    text and the percentage, and the second pattern finds the integer. *)
Lemma length_drop_while p s : (length (drop_while p s) <= length s)%nat.
Proof.
  induction s as [|c s IH]; simpl; [done|]. destruct (p c); simpl; lia.
Qed.

Lemma candidate_re_sound line g1 g2 :
  candidate_re line = Some (g1, g2) ->
  exists n ws1 ws2 rest,
    line_format line n ws1 g1 ws2 g2 rest /\ position_re line = Some n
    /\ shortest_text line g1.
Proof.
  rewrite candidate_re_closed, position_re_closed.
  pose proof (take_drop_while is_digit line) as Hl.
  pose proof (all_of_take_while is_digit line) as Hn.
  destruct (take_while is_digit line) as [|d n]; [done|].
  destruct (drop_while is_digit line) as [|c s2]; [done|].
  destruct (is_char "." c) eqn:Ec; [|done]. apply is_char_iff in Ec as ->.
  pose proof (take_drop_while is_space s2) as Hs.
  pose proof (all_of_take_while is_space s2) as Hw.
  destruct (take_while is_space s2) as [|w ws1]; [done|].
  intros H. apply name_scan_sound in H as (s5 & Hs3 & Hg & Hp & Hmin).
  apply percent_tail_sound in Hp as (ws2 & rest & -> & Hw2 & Hne & Hd).
  exists (d :: n), (w :: ws1), ws2, rest. split; [|split; [done|]].
  { split; try done. rewrite <- Hl, <- Hs, Hs3. done. }
  intros n' ws1' text' ws2' pct' rest' [Heq [_ Hn'] [_ Hws'] _ Hp' [Hc Hcd]].
  rewrite <- Hl in Heq.
  assert (d :: n = n') as <-.
  { rewrite <- (take_while_stop is_digit (d :: n) "." s2) by done.
    rewrite Heq. by apply take_while_stop. }
  apply app_inv_head in Heq. injection Heq as ->.
  rewrite drop_while_all, drop_while_before in Hmin by done.
  destruct (decide (length (drop_while is_space text') < length g1)%nat) as [Hlt|Hge].
  - apply (Hmin _ _ eq_refl) in Hlt. by rewrite percent_tail_complete in Hlt.
  - pose proof (length_drop_while is_space text'). lia.
Qed.

(** Every line of the format is matched. *)
Lemma candidate_re_complete line :
  matches_format line -> candidate_re line <> None.
Proof.
  intros (n & ws1 & text & ws2 & pct & rest & [-> [Hn Hnd] [Hw Hws] Ht Hp [Hc Hcd]]).
  rewrite candidate_re_closed.
  rewrite take_while_stop, drop_while_stop by done.
  destruct n as [|d n]; [done|]. simpl is_char. cbv iota.
  destruct ws1 as [|w ws1]; [done|].
  pose proof Hws as Hws'. apply all_of_cons in Hws' as [Hw1 _].
  replace (take_while is_space ((w :: ws1) ++ text ++ ":"%char :: ws2 ++ pct ++ "%"%char :: rest))
    with (w :: take_while is_space (ws1 ++ text ++ ":"%char :: ws2 ++ pct ++ "%"%char :: rest))
    by (simpl; by rewrite Hw1).
  rewrite drop_while_all by done.
  rewrite drop_while_before by done.
  apply name_scan_complete; [by apply all_of_drop_while|].
  by rewrite percent_tail_complete.
Qed.

Lemma candidate_of_line_reads line c :
  candidate_of_line line = Some c -> reads line c.
Proof.
  unfold candidate_of_line.
  destruct (candidate_re line) as [[g1 g2]|] eqn:E; [|done].
  apply candidate_re_sound in E as (n & ws1 & ws2 & rest & Hf & -> & Hmin).
  intros [= <-]. by exists n, ws1, g1, ws2, g2, rest.
Qed.

Lemma candidate_of_line_matches line :
  is_Some (candidate_of_line line) <-> matches_format line.
Proof.
  split.
  - intros [c Hc]. apply candidate_of_line_reads in Hc.
    destruct Hc as (n & ws1 & text & ws2 & pct & rest & Hf & _).
    by exists n, ws1, text, ws2, pct, rest.
  - intros H. apply candidate_re_complete in H. unfold candidate_of_line.
    destruct (candidate_re line) as [[g1 g2]|]; [eauto|done].
Qed.

(** The two loops of the extraction, as one pass over the lines. *)
Lemma extract_lines lines acc :
  fold_left (fun medicine_candidates line =>
      match candidate_of_line line with
      | Some c => medicine_candidates ++ [c]
      | None => medicine_candidates
      end) lines acc
  = acc ++ omap candidate_of_line lines.
Proof.
  revert acc. induction lines as [|line lines IH]; intros acc; simpl.
  - by rewrite app_nil_r.
  - rewrite IH. destruct (candidate_of_line line); [|done].
    by rewrite <- app_assoc.
Qed.

Lemma extract_interpretations interpretations acc :
  fold_left (fun medicine_candidates interpretation =>
      fold_left (fun medicine_candidates line =>
          match candidate_of_line line with
          | Some c => medicine_candidates ++ [c]
          | None => medicine_candidates
          end) (split_lines (strip interpretation)) medicine_candidates)
    interpretations acc
  = acc ++ omap candidate_of_line (lines_of interpretations).
Proof.
  unfold lines_of. revert acc.
  induction interpretations as [|t ts IH]; intros acc; simpl.
  - by rewrite app_nil_r.
  - rewrite extract_lines, IH, omap_app, app_assoc. done.
Qed.

Lemma extract_medicine_candidates_lines interpretations :
  extract_medicine_candidates interpretations
  = omap candidate_of_line (lines_of interpretations).
Proof. apply extract_interpretations. Qed.

Lemma extracted_omap lines : extracted lines (omap candidate_of_line lines).
Proof.
  induction lines as [|line lines IH]; simpl; [constructor|].
  destruct (candidate_of_line line) as [c|] eqn:E.
  - apply extracted_match; [|by apply candidate_of_line_reads|done].
    apply candidate_of_line_matches. eauto.
  - apply extracted_skip; [|done].
    intros H. apply candidate_of_line_matches in H as [c Hc]. congruence.
Qed.

Lemma length_take_drop_while p s :
  (length (take_while p s) + length (drop_while p s) = length s)%nat.
Proof. by rewrite <- length_app, take_drop_while. Qed.

(** With the shortest text, the text does not begin with whitespace. *)
Lemma shortest_text_lstrip line n ws1 text ws2 pct rest :
  line_format line n ws1 text ws2 pct rest -> shortest_text line text ->
  drop_while is_space text = text.
Proof.
  intros [Heq Hn [Hw Hws] Ht Hp Hc] Hmin.
  apply take_while_nil.
  assert (line_format line n (ws1 ++ take_while is_space text)
            (drop_while is_space text) ws2 pct rest) as Hf.
  { split; try done.
    - rewrite <- app_assoc, (app_assoc (take_while _ _)), take_drop_while. done.
    - split; [by destruct ws1|].
      apply all_of_app. split; [done|apply all_of_take_while].
    - by apply all_of_drop_while. }
  apply Hmin in Hf. pose proof (length_take_drop_while is_space text).
  destruct (take_while is_space text); [done|]. simpl in *. lia.
Qed.

(** The format and the shortest text leave no choice. *)
Lemma line_format_unique line n ws1 text ws2 pct rest n' ws1' text' ws2' pct' rest' :
  line_format line n ws1 text ws2 pct rest -> shortest_text line text ->
  line_format line n' ws1' text' ws2' pct' rest' -> shortest_text line text' ->
  n = n' /\ text = text' /\ pct = pct'.
Proof.
  intros Hf Hmin Hf' Hmin'.
  pose proof (shortest_text_lstrip _ _ _ _ _ _ _ Hf Hmin) as Hl.
  pose proof (shortest_text_lstrip _ _ _ _ _ _ _ Hf' Hmin') as Hl'.
  pose proof (Hmin _ _ _ _ _ _ Hf') as Hle.
  pose proof (Hmin' _ _ _ _ _ _ Hf) as Hle'.
  destruct Hf as [Heq [_ Hn] [_ Hws] _ Hp [Hc Hcd]].
  destruct Hf' as [Heq' [_ Hn'] [_ Hws'] _ Hp' [Hc' Hcd']].
  assert (n = n') as <-.
  { rewrite <- (take_while_stop is_digit n "."
      (ws1 ++ text ++ ":"%char :: ws2 ++ pct ++ "%"%char :: rest)) by done.
    rewrite <- Heq, Heq'. by apply take_while_stop. }
  rewrite Heq in Heq'. apply app_inv_head in Heq'. injection Heq' as Heq'.
  apply (f_equal (drop_while is_space)) in Heq'.
  rewrite (drop_while_all _ ws1), (drop_while_all _ ws1') in Heq' by done.
  rewrite (drop_while_before _ text), (drop_while_before _ text') in Heq' by done.
  rewrite Hl, Hl' in Heq'.
  apply app_inj_1 in Heq' as [<- Heq']; [|lia].
  injection Heq' as Heq'. apply (f_equal percent_tail) in Heq'.
  rewrite !percent_tail_complete in Heq' by done. by injection Heq' as <-.
Qed.

Lemma reads_unique line c c' : reads line c -> reads line c' -> c = c'.
Proof.
  intros (n & ws1 & text & ws2 & pct & rest & Hf & Hmin & Hp & Hn & Hc)
         (n' & ws1' & text' & ws2' & pct' & rest' & Hf' & Hmin' & Hp' & Hn' & Hc').
  destruct (line_format_unique _ _ _ _ _ _ _ _ _ _ _ _ _ Hf Hmin Hf' Hmin')
    as (<- & <- & <-).
  destruct c, c'; simpl in *. congruence.
Qed.

Lemma extracted_unique lines cs cs' :
  extracted lines cs -> extracted lines cs' -> cs = cs'.
Proof.
  intros H. revert cs'. induction H as [|line c lines cs Hm Hr _ IH|line lines cs Hm _ IH];
    intros cs' H'; inversion H'; subst; try done.
  - f_equal; [by apply (reads_unique line)|by apply IH].
  - by apply IH.
Qed.

(** ** Extraction *)

(** C1, as the specification states it, fails on two counts.  The lines
    that count are not the lines of the text as it stands: the text is
    stripped of its leading and trailing whitespace first, so that an
    indented first line gives a candidate although it does not begin with
    an integer.  And the name is not the text before the colon as it
    stands: the whitespace at its end is removed. *)
Lemma extraction_strips_text_and_name :
  ~ (forall interpretations,
       extracted (text_lines_of interpretations)
                 (extract_medicine_candidates interpretations))
  /\ ~ (forall interpretations c,
          c ∈ extract_medicine_candidates interpretations ->
          exists line n ws1 ws2 pct rest,
            line ∈ lines_of interpretations
            /\ line_format line n ws1 (name c) ws2 pct rest).
Proof.
  split.
  - intros H. specialize (H [lit " 1. Napa: 80%"]).
    vm_compute in H. inversion H as [|? ? ? ? Hm|? ? ? ? Hr]; subst.
    + destruct Hm as (n & ws1 & text & ws2 & pct & rest & [Heq [Hn Hd] _ _ _ _]).
      destruct n as [|d n]; [done|]. injection Heq as <- _.
      by apply all_of_cons in Hd as [Hd _].
    + inversion Hr.
  - intros H.
    destruct (H [lit "1. Napa : 80%"] (Candidate (lit "Napa") 80 1))
      as (line & n & ws1 & ws2 & pct & rest & Hin & [Heq [_ Hd] [_ Hws] _ _ _]).
    { vm_compute. apply list_elem_of_here. }
    apply list_elem_of_In in Hin. vm_compute in Hin. destruct Hin as [<-|[]].
    pose proof (f_equal (take_while is_digit) Heq) as Hn.
    rewrite take_while_stop in Hn by done. subst n.
    injection Heq as Heq.
    apply (f_equal (drop_while is_space)) in Heq.
    rewrite drop_while_all in Heq by done. discriminate Heq.
Qed.

(** C1, amended. For every list of interpretation texts, the extraction
    strips each text of its leading and trailing whitespace and cuts it at
    the line feeds; it yields one candidate for each of these lines that
    has the format [<int>. <text>: <int>%] and none for the other lines.
    The position of a candidate is the integer that starts its line, its
    name is the text between the whitespace after the period and the first
    colon that a percentage follows, without the whitespace at its end, and
    its confidence is the integer before the percent sign.  No other list
    of candidates has that property. *)
Theorem extraction_follows_line_format (interpretations : list str) :
  extracted (lines_of interpretations) (extract_medicine_candidates interpretations)
  /\ forall cs, extracted (lines_of interpretations) cs ->
       cs = extract_medicine_candidates interpretations.
Proof.
  assert (extracted (lines_of interpretations)
            (extract_medicine_candidates interpretations)) as H.
  { rewrite extract_medicine_candidates_lines. apply extracted_omap. }
  split; [done|]. intros cs Hcs. by apply (extracted_unique _ _ _ Hcs).
Qed.

Lemma digit_value_nonneg c : is_digit c = true -> 0 <= digit_value c <= 9.
Proof.
  unfold is_digit, digit_value. intros H.
  apply andb_true_iff in H as [H1 H2].
  apply N.leb_le in H1. apply N.leb_le in H2. lia.
Qed.

Lemma int_of_digits_nonneg s : all_of is_digit s -> 0 <= int_of_digits s.
Proof.
  unfold int_of_digits.
  enough (forall acc, 0 <= acc -> all_of is_digit s ->
            0 <= fold_left (fun acc c => 10 * acc + digit_value c) s acc) as H
    by (intros Hs; by apply H).
  induction s as [|c s IH]; intros acc Hacc Hs; simpl; [done|].
  apply all_of_cons in Hs as [Hc Hs]. apply IH; [|done].
  pose proof (digit_value_nonneg c Hc). lia.
Qed.

Lemma candidate_of_line_nonneg line c :
  candidate_of_line line = Some c -> 0 <= confidence c /\ 0 <= position c.
Proof.
  intros H. apply candidate_of_line_reads in H.
  destruct H as (n & ws1 & text & ws2 & pct & rest & Hf & _ & -> & _ & ->).
  destruct Hf as [_ [_ Hn] _ _ _ [_ Hp]].
  split; by apply int_of_digits_nonneg.
Qed.

(** C7, as the specification states it, fails: the confidence of a candidate
    is whatever integer the line carries. *)
Lemma confidence_may_exceed_100 :
  ~ (forall interpretations c,
       In c (extract_medicine_candidates interpretations) ->
       0 <= confidence c <= 100).
Proof.
  intros H.
  specialize (H [lit "1. Napa: 150%"] (Candidate (lit "Napa") 150 1)).
  assert (0 <= 150 <= 100) as Hbad; [|lia].
  apply H. vm_compute. by left.
Qed.

(** C7, amended. Every candidate the extraction produces has a name that is
    a text, a position that is a non-negative integer and a confidence that
    is a non-negative integer; the confidence is not bounded by 100. *)
Theorem extracted_candidates_nonnegative (interpretations : list str) :
  Forall (fun c => 0 <= confidence c /\ 0 <= position c)
         (extract_medicine_candidates interpretations).
Proof.
  rewrite extract_medicine_candidates_lines. apply Forall_forall.
  intros c Hc. apply list_elem_of_omap in Hc as (line & _ & Hc).
  by apply (candidate_of_line_nonneg line).
Qed.

(** ** Sorting *)

Section SortFacts.
Context {A : Type} (leb : A -> A -> bool).

Lemma insert_sorted_perm x l : insert_sorted leb x l ≡ₚ x :: l.
Proof.
  induction l as [|y l IH]; simpl; [done|].
  destruct (leb x y); [done|]. rewrite IH. apply Permutation_swap.
Qed.

Lemma sort_perm l : sort leb l ≡ₚ l.
Proof.
  induction l as [|x l IH]; simpl; [done|].
  by rewrite insert_sorted_perm, IH.
Qed.

Lemma length_sort l : length (sort leb l) = length l.
Proof. by rewrite sort_perm. Qed.

Hypothesis leb_total : forall a b, leb a b = true \/ leb b a = true.
Hypothesis leb_trans : forall a b c, leb a b = true -> leb b c = true -> leb a c = true.

Lemma insert_sorted_sorted x l :
  StronglySorted (fun a b => leb a b = true) l ->
  StronglySorted (fun a b => leb a b = true) (insert_sorted leb x l).
Proof.
  induction 1 as [|y l Hl IH Hy]; simpl; [by repeat constructor|].
  destruct (leb x y) eqn:E.
  - constructor; [by constructor|]. constructor; [done|].
    eapply Forall_impl; [exact Hy|]. intros z Hz. by apply (leb_trans x y z).
  - constructor; [done|]. rewrite insert_sorted_perm. constructor; [|done].
    destruct (leb_total x y); congruence.
Qed.

Lemma sort_sorted l : StronglySorted (fun a b => leb a b = true) (sort leb l).
Proof.
  induction l as [|x l IH]; simpl; [constructor|]. by apply insert_sorted_sorted.
Qed.
End SortFacts.

Lemma StronglySorted_mono {A} (R R' : A -> A -> Prop) l :
  (forall a b, R a b -> R' a b) -> StronglySorted R l -> StronglySorted R' l.
Proof.
  intros HR. induction 1 as [|x l Hl IH Hx]; constructor; [done|].
  eapply Forall_impl; [exact Hx|]. intros; by apply HR.
Qed.

(** Sorting by a key keeps the elements of equal key in their order. *)
Section SortByKey.
Context {A : Type} (key : A -> Z).
Abbreviation kleb := (key_leb key).

Lemma kleb_total a b : kleb a b = true \/ kleb b a = true.
Proof. unfold key_leb. rewrite !Z.leb_le. lia. Qed.

Lemma kleb_trans a b c : kleb a b = true -> kleb b c = true -> kleb a c = true.
Proof. unfold key_leb. rewrite !Z.leb_le. lia. Qed.

Lemma filter_key_insert p x l :
  filter (fun a => key a = p) (insert_sorted kleb x l)
  = filter (fun a => key a = p) (x :: l).
Proof.
  induction l as [|y l IH]; simpl; [done|].
  destruct (kleb x y) eqn:E; [done|].
  unfold key_leb in E. apply Z.leb_gt in E.
  rewrite filter_cons, IH, !filter_cons.
  repeat case_decide; try done. lia.
Qed.

Lemma filter_key_sort p l :
  filter (fun a => key a = p) (sort kleb l) = filter (fun a => key a = p) l.
Proof.
  induction l as [|x l IH]; simpl; [done|].
  by rewrite filter_key_insert, !filter_cons, IH.
Qed.

Lemma sort_by_key_sorted l :
  StronglySorted (fun a b => key a <= key b) (sort kleb l).
Proof.
  eapply StronglySorted_mono; [|apply (sort_sorted kleb kleb_total kleb_trans)].
  intros a b. unfold key_leb. by rewrite Z.leb_le.
Qed.
End SortByKey.

(** ** Grouping *)

Lemma position_groups_fold l (m : gmap Z (list candidate)) p :
  let m' := fold_left (fun position_groups candidate =>
      <[position candidate :=
          default [] (position_groups !! position candidate) ++ [candidate]]>
        position_groups) l m in
  default [] (m' !! p) = default [] (m !! p) ++ at_position p l
  /\ (is_Some (m' !! p) <-> is_Some (m !! p) \/ exists c, c ∈ l /\ position c = p).
Proof.
  revert m. induction l as [|c l IH]; intros m; simpl.
  - split; [by rewrite app_nil_r|]. split; [by left|].
    intros [H|(c & Hc & _)]; [done|]. by apply elem_of_nil in Hc.
  - destruct (IH (<[position c := default [] (m !! position c) ++ [c]]> m)) as [IH1 IH2].
    split.
    + rewrite IH1. unfold at_position. rewrite filter_cons.
      destruct (decide (position c = p)) as [Heq|Hne].
      * rewrite Heq, lookup_insert_eq. simpl. by rewrite <- app_assoc.
      * by rewrite lookup_insert_ne.
    + rewrite IH2. destruct (decide (position c = p)) as [Heq|Hne].
      * rewrite Heq, lookup_insert_eq. split; [|by left; eauto].
        intros _. right. exists c. split; [apply list_elem_of_here|done].
      * rewrite lookup_insert_ne by done. split.
        -- intros [H|(c' & Hc' & Hp)]; [by left|].
           right. exists c'. split; [by apply list_elem_of_further|done].
        -- intros [H|(c' & Hc' & Hp)]; [by left|].
           apply elem_of_cons in Hc' as [->|Hc']; [done|]. right. eauto.
Qed.

Lemma position_groups_members l p :
  default [] (position_groups_of l !! p) = at_position p l.
Proof.
  unfold position_groups_of.
  destruct (position_groups_fold l ∅ p) as [H _]. by rewrite H, lookup_empty.
Qed.

Lemma position_groups_keys l p :
  p ∈ (map_to_list (position_groups_of l)).*1 <-> exists c, c ∈ l /\ position c = p.
Proof.
  unfold position_groups_of.
  destruct (position_groups_fold l ∅ p) as [_ H].
  rewrite list_elem_of_fmap. split.
  - intros ([k v] & -> & Hkv). apply elem_of_map_to_list in Hkv.
    destruct H as [H _]. destruct H as [H|H]; [by eexists| |done].
    rewrite lookup_empty in H. by destruct H.
  - intros Hc. destruct H as [_ H]. destruct H as [v Hv]; [by right|].
    exists (p, v). split; [done|]. by apply elem_of_map_to_list.
Qed.

Lemma sort_by_position_stable p l :
  at_position p (sort_by_position l) = at_position p l.
Proof. apply (filter_key_sort position). Qed.

Lemma sort_by_position_perm l : sort_by_position l ≡ₚ l.
Proof. apply sort_perm. Qed.

Lemma sort_by_position_sorted l :
  StronglySorted (fun a b => position a <= position b) (sort_by_position l).
Proof. apply (sort_by_key_sorted position). Qed.

Lemma sort_leb_sorted (l : list Z) : StronglySorted Z.le (sort Z.leb l).
Proof. apply (sort_by_key_sorted (fun z => z)). Qed.

Lemma strictly_sorted (l : list Z) :
  StronglySorted Z.le l -> NoDup l -> StronglySorted Z.lt l.
Proof.
  induction 1 as [|x l Hl IH Hx]; intros Hnd; [constructor|].
  apply NoDup_cons in Hnd as [Hx' Hnd]. constructor; [by apply IH|].
  apply Forall_forall. intros y Hy.
  rewrite Forall_forall in Hx. specialize (Hx y Hy).
  assert (x <> y) by (intros ->; done). lia.
Qed.

(** The positions of the groups: the keys of the dictionary, ascending. *)
Lemma group_positions l :
  map group_position (group_similar_medicines l)
  = sort Z.leb (map_to_list (position_groups_of (sort_by_position l))).*1.
Proof.
  unfold group_similar_medicines. rewrite map_map. simpl. apply map_id.
Qed.

Lemma at_position_none k l :
  (forall c, c ∈ l -> position c <> k) -> at_position k l = [].
Proof.
  unfold at_position. induction l as [|x l IH]; intros H; [done|].
  rewrite filter_cons_False by (apply H, list_elem_of_here).
  apply IH. intros c Hc. by apply H, list_elem_of_further.
Qed.

Lemma filter_all {A} (P : A -> Prop) `{forall x, Decision (P x)} (l : list A) :
  (forall x, x ∈ l -> P x) -> filter P l = l.
Proof.
  induction l as [|x l IH]; intros HP; [done|].
  rewrite filter_cons_True by (apply HP, list_elem_of_here).
  f_equal. apply IH. intros y Hy. by apply HP, list_elem_of_further.
Qed.

(** In a list sorted by position, the candidates of the least position come
    first. *)
Lemma sorted_split_min k l :
  StronglySorted (fun a b => position a <= position b) l ->
  (forall c, c ∈ l -> k <= position c) ->
  l = at_position k l ++ filter (fun c => position c <> k) l.
Proof.
  induction 1 as [|x l Hl IH Hx]; intros Hk; [done|].
  assert (k <= position x) as Hkx by apply Hk, list_elem_of_here.
  assert (forall c, c ∈ l -> k <= position c) as Hk'
    by (intros c Hc; by apply Hk, list_elem_of_further).
  unfold at_position in *. rewrite !filter_cons.
  destruct (decide (position x = k)) as [Heq|Hne].
  - rewrite decide_False by (intros Hn; by apply Hn). simpl. f_equal. by apply IH.
  - rewrite decide_True by done.
    rewrite Forall_forall in Hx.
    fold (at_position k l). rewrite at_position_none.
    + simpl. f_equal. symmetry. apply filter_all.
      intros c Hc. specialize (Hx c Hc). lia.
    + intros c Hc. specialize (Hx c Hc). lia.
Qed.

Lemma at_position_others p k l :
  p <> k -> at_position p (filter (fun c => position c <> k) l) = at_position p l.
Proof.
  intros Hpk. unfold at_position. induction l as [|x l IH]; [done|].
  rewrite !filter_cons. destruct (decide (position x <> k)) as [Hx|Hx].
  - rewrite filter_cons, IH. done.
  - rewrite IH. rewrite decide_False; [done|]. intros Hp. apply Hx. congruence.
Qed.

Lemma StronglySorted_filter {A} (R : A -> A -> Prop) (P : A -> Prop)
    `{forall x, Decision (P x)} (l : list A) :
  StronglySorted R l -> StronglySorted R (filter P l).
Proof.
  induction 1 as [|x l Hl IH Hx]; [constructor|].
  rewrite filter_cons. case_decide; [|done]. constructor; [done|].
  apply Forall_forall. intros y Hy. apply list_elem_of_filter in Hy as [_ Hy].
  rewrite Forall_forall in Hx. by apply Hx.
Qed.

(** Reading a sorted list bucket by bucket, in ascending order of the
    positions, gives the list back. *)
Lemma buckets_concat ks l :
  StronglySorted Z.lt ks ->
  StronglySorted (fun a b => position a <= position b) l ->
  (forall c, c ∈ l -> position c ∈ ks) ->
  concat (map (fun p => at_position p l) ks) = l.
Proof.
  intros Hks. revert l. induction Hks as [|k ks Hks IH Hk]; intros l Hl Hin.
  - destruct l as [|c l]; [done|].
    specialize (Hin c (list_elem_of_here _ _)). by apply elem_of_nil in Hin.
  - simpl. rewrite Forall_forall in Hk.
    assert (forall c, c ∈ l -> k <= position c) as Hmin.
    { intros c Hc. specialize (Hin c Hc).
      apply elem_of_cons in Hin as [->|Hin]; [lia|].
      specialize (Hk _ Hin). lia. }
    etransitivity; [|symmetry; apply (sorted_split_min k l Hl Hmin)].
    f_equal.
    etransitivity; [|apply (IH (filter (fun c => position c <> k) l))].
    + f_equal. apply map_ext_in. intros p Hp.
      symmetry. apply at_position_others.
      apply list_elem_of_In in Hp. specialize (Hk p Hp). lia.
    + by apply StronglySorted_filter.
    + intros c Hc. apply list_elem_of_filter in Hc as [Hne Hc].
      specialize (Hin c Hc). apply elem_of_cons in Hin as [Heq|Hin]; done.
Qed.

Lemma group_members_at_position l :
  map group_members (group_similar_medicines l)
  = map (fun p => at_position p (sort_by_position l))
        (map group_position (group_similar_medicines l)).
Proof.
  unfold group_similar_medicines. rewrite !map_map. simpl.
  apply map_ext. intros p. apply position_groups_members.
Qed.

Lemma group_positions_sorted l :
  StronglySorted Z.lt (map group_position (group_similar_medicines l)).
Proof.
  rewrite group_positions. apply strictly_sorted; [apply sort_leb_sorted|].
  rewrite sort_perm. apply NoDup_fst_map_to_list.
Qed.

Lemma group_positions_present l p :
  p ∈ map group_position (group_similar_medicines l)
  <-> exists c, c ∈ l /\ position c = p.
Proof.
  rewrite group_positions, sort_perm, position_groups_keys.
  split; intros (c & Hc & Hp); exists c; split; try done.
  - by rewrite <- (sort_by_position_perm l).
  - by rewrite (sort_by_position_perm l).
Qed.

(** C2. For every list of candidates, the grouping produces one group for
    each position present in the list, in ascending order of position; the
    members of a group are the candidates of that position in the order of
    the list, and its text is
    [Medicine <position>: [<name1>: <conf1>%, <name2>: <conf2>%, ...]]. *)
Theorem grouping_by_position (medicine_candidates : list candidate) :
  let groups := group_similar_medicines medicine_candidates in
  StronglySorted Z.lt (map group_position groups)
  /\ (forall p, p ∈ map group_position groups
        <-> exists c, c ∈ medicine_candidates /\ position c = p)
  /\ Forall (fun g =>
        group_members g = at_position (group_position g) medicine_candidates
        /\ group_text g = rendered_group (group_position g) (group_members g))
      groups.
Proof.
  split; [apply group_positions_sorted|]. split; [apply group_positions_present|].
  unfold group_similar_medicines. apply Forall_map, Forall_forall. intros p _.
  unfold group_members, group_text, group_position, rendered_group. simpl.
  rewrite position_groups_members, sort_by_position_stable.
  split; [done|]. by rewrite <- !app_assoc.
Qed.

(** C10. For every list of candidates, the members of the groups, read in
    the order of the groups, are the list sorted by position with the
    candidates of equal position kept in their order: the same candidates,
    each once, unchanged. *)
Theorem grouping_is_a_stable_partition (medicine_candidates : list candidate) :
  concat (map group_members (group_similar_medicines medicine_candidates))
    = sort_by_position medicine_candidates
  /\ sort_by_position medicine_candidates ≡ₚ medicine_candidates
  /\ StronglySorted (fun a b => position a <= position b)
       (sort_by_position medicine_candidates)
  /\ forall p, at_position p (sort_by_position medicine_candidates)
               = at_position p medicine_candidates.
Proof.
  split; [|split; [apply sort_by_position_perm|
           split; [apply sort_by_position_sorted|
                   intros; apply sort_by_position_stable]]].
  rewrite group_members_at_position. apply buckets_concat.
  - apply group_positions_sorted.
  - apply sort_by_position_sorted.
  - intros c Hc. apply group_positions_present. exists c. split; [|done].
    by rewrite <- (sort_by_position_perm medicine_candidates).
Qed.

(** C9. For the interpretations
    ["1. Napa: 80%\n2. Seclo: 70%"; "1. Napa: 90%"; "1. Nap: 60%\n2. Seclo: 85%"]
    the extraction yields 5 candidates and the grouping 2 groups: position 1
    with Napa 80, Napa 90, Nap 60 and position 2 with Seclo 70, Seclo 85, in
    that order. *)
Theorem napa_seclo_example :
  let interpretations :=
    [lit "1. Napa: 80%" ++ nl ++ lit "2. Seclo: 70%";
     lit "1. Napa: 90%";
     lit "1. Nap: 60%" ++ nl ++ lit "2. Seclo: 85%"] in
  let medicine_candidates := extract_medicine_candidates interpretations in
  let medicine_groups := group_similar_medicines medicine_candidates in
  length medicine_candidates = 5%nat
  /\ map (fun g => (group_position g,
                    map (fun c => (name c, confidence c)) (group_members g)))
         medicine_groups
     = [(1, [(lit "Napa", 80); (lit "Napa", 90); (lit "Nap", 60)]);
        (2, [(lit "Seclo", 70); (lit "Seclo", 85)])]
  /\ map group_text medicine_groups
     = [lit "Medicine 1: [Napa: 80%, Napa: 90%, Nap: 60%]";
        lit "Medicine 2: [Seclo: 70%, Seclo: 85%]"].
Proof. vm_compute. done. Qed.

(** ** Traces and values *)

Lemma bind_ret {A B} t (a : A) (f : A -> M B) :
  bind (t, Ret a) f = (t ++ trace (f a), value (f a)).
Proof. unfold bind, trace, value. by destruct (f a). Qed.

Lemma bind_exc {A B} t e (f : A -> M B) : bind (t, Exc e) f = (t, Exc e).
Proof. done. Qed.

Lemma trace_pair {A} t (r : result A) : trace (t, r) = t.
Proof. done. Qed.

Lemma value_pair {A} t (r : result A) : value (t, r) = r.
Proof. done. Qed.

Lemma requests_app t1 t2 : requests (t1 ++ t2) = requests t1 ++ requests t2.
Proof. apply omap_app. Qed.

Lemma submit_all_spec {K A} (tasks : list (K * M A)) :
  submit_all tasks
  = (flat_map (fun kt => trace kt.2) tasks,
     Ret (map (fun kt => (kt.1, value kt.2)) tasks)).
Proof.
  induction tasks as [|[k t] tasks IH]; simpl; [done|].
  rewrite IH. unfold submit. rewrite !bind_ret. simpl.
  by rewrite app_nil_r.
Qed.

(** A loop whose body logs and never raises. *)
Lemma for_fold_total {A S} (body : S -> A -> M S) (ev : A -> list event)
    (step : S -> A -> S) l acc :
  (forall s a, body s a = (ev a, Ret (step s a))) ->
  for_fold l acc body = (flat_map ev l, Ret (fold_left step l acc)).
Proof.
  intros H. revert acc. induction l as [|a l IH]; intros acc; simpl; [done|].
  by rewrite H, bind_ret, IH.
Qed.

Lemma fold_left_collect {A B} (sel : A -> option B) l acc :
  fold_left (fun s a => match sel a with Some x => s ++ [x] | None => s end) l acc
  = acc ++ omap sel l.
Proof.
  revert acc. induction l as [|a l IH]; intros acc; simpl.
  - by rewrite app_nil_r.
  - rewrite IH. destruct (sel a); [|done]. by rewrite <- app_assoc.
Qed.

Lemma requests_none {A} (ev : A -> list event) l :
  (forall a, requests (ev a) = []) -> requests (flat_map ev l) = [].
Proof.
  intros H. induction l as [|a l IH]; simpl; [done|].
  by rewrite requests_app, H, IH.
Qed.

(** Every future is yielded once. *)
Lemma omap_lookup_seq {A} (l : list A) :
  omap (fun i => l !! i) (seq 0 (length l)) = l.
Proof.
  induction l as [|x l IH]; simpl; [done|].
  f_equal. rewrite <- seq_shift.
  rewrite <- IH at 2. clear IH.
  generalize (seq 0 (length l)) as js. intros js.
  induction js as [|j js IH]; simpl; [done|]. by rewrite IH.
Qed.

Lemma as_completed_perm {K A} (futures : list (K * result A)) completion :
  completion ≡ₚ seq 0 (length futures) ->
  as_completed futures completion ≡ₚ futures.
Proof.
  intros H. unfold as_completed. rewrite H. by rewrite omap_lookup_seq.
Qed.

(** ** The order of [results.sort()] *)

Lemma code_inj x y : code x = code y -> x = y.
Proof.
  unfold code. intros H.
  rewrite <- (ascii_N_embedding x), <- (ascii_N_embedding y). by rewrite H.
Qed.

Lemma str_leb_total a b : str_leb a b = true \/ str_leb b a = true.
Proof.
  revert b. induction a as [|x a IH]; intros [|y b]; simpl; auto.
  destruct (N.ltb_spec (code x) (code y)), (N.ltb_spec (code y) (code x));
    auto; lia.
Qed.

Lemma str_leb_trans a b c :
  str_leb a b = true -> str_leb b c = true -> str_leb a c = true.
Proof.
  revert b c. induction a as [|x a IH]; intros [|y b] [|z c]; simpl; try done.
  destruct (N.ltb_spec (code x) (code y)), (N.ltb_spec (code y) (code x)),
           (N.ltb_spec (code y) (code z)), (N.ltb_spec (code z) (code y)),
           (N.ltb_spec (code x) (code z)), (N.ltb_spec (code z) (code x));
    try done; try lia.
  apply IH.
Qed.

Lemma str_leb_antisym a b :
  str_leb a b = true -> str_leb b a = true -> a = b.
Proof.
  revert b. induction a as [|x a IH]; intros [|y b]; simpl; try done.
  destruct (N.ltb_spec (code x) (code y)), (N.ltb_spec (code y) (code x));
    try done; try lia.
  intros H1 H2. f_equal; [apply code_inj; lia|by apply IH].
Qed.

Lemma tuple_leb_total a b : tuple_leb a b = true \/ tuple_leb b a = true.
Proof.
  unfold tuple_leb.
  destruct (Z.ltb_spec a.1 b.1), (Z.ltb_spec b.1 a.1); auto; try lia.
  apply str_leb_total.
Qed.

Lemma tuple_leb_trans a b c :
  tuple_leb a b = true -> tuple_leb b c = true -> tuple_leb a c = true.
Proof.
  unfold tuple_leb.
  destruct (Z.ltb_spec a.1 b.1), (Z.ltb_spec b.1 a.1),
           (Z.ltb_spec b.1 c.1), (Z.ltb_spec c.1 b.1),
           (Z.ltb_spec a.1 c.1), (Z.ltb_spec c.1 a.1);
    try done; try lia.
  apply str_leb_trans.
Qed.

Lemma tuple_leb_antisym a b :
  tuple_leb a b = true -> tuple_leb b a = true -> a = b.
Proof.
  unfold tuple_leb. destruct a as [t x], b as [t' y]. simpl.
  destruct (Z.ltb_spec t t'), (Z.ltb_spec t' t); try done; try lia.
  intros H1 H2. f_equal; [lia|by apply str_leb_antisym].
Qed.

#[local] Instance tuple_le_trans : Transitive tuple_le.
Proof. intros a b c. apply tuple_leb_trans. Qed.

#[local] Instance tuple_le_antisym : AntiSymm (=) tuple_le.
Proof. intros a b. apply tuple_leb_antisym. Qed.

Lemma sort_tuple_sorted l : StronglySorted tuple_le (sort tuple_leb l).
Proof. apply (sort_sorted tuple_leb tuple_leb_total tuple_leb_trans). Qed.

(** What is sorted depends on the elements only, not on their order. *)
Lemma sort_tuple_perm l l' : l ≡ₚ l' -> sort tuple_leb l = sort tuple_leb l'.
Proof.
  intros H. apply (StronglySorted_unique tuple_le); try apply sort_tuple_sorted.
  by rewrite !sort_perm.
Qed.

(** A list that is sorted already is left as it is. *)
Lemma sort_tuple_id l : StronglySorted tuple_le l -> sort tuple_leb l = l.
Proof.
  intros H. apply (StronglySorted_unique tuple_le); [apply sort_tuple_sorted|done|].
  apply sort_perm.
Qed.

(** ** Interpretation fan-out *)

Lemma call_model_spec svc r :
  call_model svc r
  = ([generate_content r],
     match svc r with Returned text => Ret text | Raised e => Exc e end).
Proof. unfold call_model, emit. rewrite bind_ret. by destruct (svc r). Qed.

Lemma interpretation_futures svc img js :
  map (fun kt : Z * M str => (kt.1, value kt.2))
      (map (fun temp => (temp, generate_interpretation svc temp img))
           (map temperature_of_pass js))
  = map (fun i => (temperature_of_pass i,
                   match svc (interpretation_request img i) with
                   | Returned text => Ret text
                   | Raised e => Exc e
                   end)) js.
Proof.
  rewrite !map_map. apply map_ext. intros i. simpl.
  unfold generate_interpretation. by rewrite call_model_spec.
Qed.

Lemma interpretation_submits svc img js :
  flat_map (fun kt : Z * M str => trace kt.2)
      (map (fun temp => (temp, generate_interpretation svc temp img))
           (map temperature_of_pass js))
  = map (fun i => generate_content (interpretation_request img i)) js.
Proof.
  induction js as [|i js IH]; simpl; [done|]. rewrite IH.
  unfold generate_interpretation. by rewrite call_model_spec.
Qed.

Lemma requests_generate (rs : list request) :
  requests (map generate_content rs) = rs.
Proof. induction rs as [|r rs IH]; simpl; [done|]. unfold requests in *. simpl. by rewrite IH. Qed.

Lemma kept_successes svc img js :
  omap kept
    (map (fun i => (temperature_of_pass i,
                    match svc (interpretation_request img i) with
                    | Returned text => Ret text
                    | Raised e => Exc e
                    end)) js)
  = omap (fun i => pair (temperature_of_pass i)
                     <$> successful_text svc (interpretation_request img i)) js.
Proof.
  induction js as [|i js IH]; csimpl; [done|]. rewrite IH.
  unfold kept, successful_text. simpl.
  by destruct (svc (interpretation_request img i)).
Qed.

Lemma successes_texts svc img js :
  map snd (omap (fun i => pair (temperature_of_pass i)
                     <$> successful_text svc (interpretation_request img i)) js)
  = omap (fun i => successful_text svc (interpretation_request img i)) js.
Proof.
  induction js as [|i js IH]; csimpl; [done|].
  destruct (successful_text svc (interpretation_request img i)); csimpl; by rewrite IH.
Qed.

Lemma seq_sorted a n : StronglySorted lt (seq a n).
Proof.
  revert a. induction n as [|n IH]; intros a; simpl; constructor; [apply IH|].
  apply Forall_forall. intros j Hj. apply list_elem_of_In, in_seq in Hj. lia.
Qed.

(** The successes, taken in the order of the passes, are sorted. *)
Lemma successes_sorted svc img js :
  StronglySorted lt js ->
  StronglySorted tuple_le
    (omap (fun i => pair (temperature_of_pass i)
                      <$> successful_text svc (interpretation_request img i)) js).
Proof.
  induction 1 as [|i js Hjs IH Hi]; csimpl; [constructor|].
  destruct (successful_text svc (interpretation_request img i)) as [text|]; csimpl; [|done].
  constructor; [done|]. apply Forall_forall. intros [t x] Hx.
  apply list_elem_of_omap in Hx as (j & Hj & Hx).
  destruct (successful_text svc (interpretation_request img j)); [|done].
  injection Hx as <- <-. rewrite Forall_forall in Hi. specialize (Hi j Hj).
  unfold tuple_le, tuple_leb, temperature_of_pass. simpl.
  destruct (Z.ltb_spec (7 + Z.of_nat i * 2) (7 + Z.of_nat j * 2)); [done|lia].
Qed.

Lemma run_parallel_interpretations_unfold svc img n completion :
  run_parallel_interpretations svc img n completion
  = match n with
    | O => ([], Exc max_workers_error)
    | S _ =>
        let completed := as_completed (interpretation_futures_of svc img n) completion in
        (map (fun i => generate_content (interpretation_request img i)) (seq 0 n)
           ++ flat_map interpretation_notice completed,
         Ret (map snd (sort tuple_leb (omap kept completed))))
    end.
Proof.
  unfold run_parallel_interpretations, thread_pool_executor.
  destruct n as [|n]; [done|].
  replace (Z.of_nat (S n) <=? 0) with false by (symmetry; apply Z.leb_gt; lia).
  rewrite submit_all_spec, bind_ret.
  rewrite interpretation_futures, interpretation_submits.
  fold (interpretation_futures_of svc img (S n)).
  rewrite (for_fold_total _ interpretation_notice
             (fun s a => match kept a with Some x => s ++ [x] | None => s end)).
  - rewrite trace_pair, value_pair.
    rewrite fold_left_collect, bind_ret. simpl. by rewrite !app_nil_r.
  - intros s [temp [r|e]]; reflexivity.
Qed.

Lemma run_parallel_interpretations_requests svc img n completion :
  requests (trace (run_parallel_interpretations svc img n completion))
  = map (interpretation_request img) (seq 0 n).
Proof.
  rewrite run_parallel_interpretations_unfold. destruct n as [|n]; [done|].
  cbv zeta. rewrite trace_pair, requests_app.
  rewrite <- (map_map (interpretation_request img) generate_content).
  rewrite requests_generate, requests_none; [by rewrite app_nil_r|].
  by intros [temp [r|e]].
Qed.

Lemma run_parallel_interpretations_value svc img n completion :
  completion ≡ₚ seq 0 n ->
  value (run_parallel_interpretations svc img n completion)
  = match n with
    | O => Exc max_workers_error
    | S _ => Ret (omap (fun i => successful_text svc (interpretation_request img i))
                       (seq 0 n))
    end.
Proof.
  intros Hc. rewrite run_parallel_interpretations_unfold.
  destruct n as [|n]; [done|]. cbv zeta. rewrite value_pair. f_equal.
  rewrite (sort_tuple_perm _ (omap kept (interpretation_futures_of svc img (S n)))).
  - unfold interpretation_futures_of.
    rewrite kept_successes, sort_tuple_id, successes_texts; [done|].
    apply successes_sorted, seq_sorted.
  - apply omap_Permutation, as_completed_perm.
    unfold interpretation_futures_of. by rewrite length_map, length_seq.
Qed.

(** C5. For fixed outcomes of the calls, two runs of the interpretation
    fan-out that differ only in the order in which the calls complete return
    the same list: the texts of the calls that succeeded, by ascending
    temperature. *)
Theorem interpretation_order_independent svc img n (c1 c2 : list nat) :
  c1 ≡ₚ seq 0 n -> c2 ≡ₚ seq 0 n ->
  value (run_parallel_interpretations svc img n c1)
    = value (run_parallel_interpretations svc img n c2)
  /\ (forall texts,
        value (run_parallel_interpretations svc img n c1) = Ret texts ->
        texts = omap (fun i => successful_text svc (interpretation_request img i))
                     (seq 0 n)).
Proof.
  intros H1 H2. rewrite !run_parallel_interpretations_value by done.
  split; [done|]. destruct n; [done|]. by intros texts [= <-].
Qed.

Lemma interpretation_order_independent_witness :
  value (run_parallel_interpretations example_service [] 3 [0; 1; 2]%nat)
    = value (run_parallel_interpretations example_service [] 3 [2; 0; 1]%nat)
  /\ (forall texts,
        value (run_parallel_interpretations example_service [] 3 [0; 1; 2]%nat)
          = Ret texts ->
        texts = omap (fun i => successful_text example_service
                                 (interpretation_request [] i))
                     (seq 0 3)).
Proof.
  apply (interpretation_order_independent example_service [] 3
           [0; 1; 2]%nat [2; 0; 1]%nat).
  - reflexivity.
  - apply (bool_decide_unpack _). by vm_compute.
Defined.

(** C8. In a run of the interpretation fan-out every pass is requested once,
    a call that raises adds nothing to the list returned and is not
    requested again, and the texts of the calls that succeed are returned:
    a failing call does not make the fan-out raise. *)
Theorem failed_interpretations_are_dropped svc img n (completion : list nat) :
  completion ≡ₚ seq 0 n ->
  requests (trace (run_parallel_interpretations svc img n completion))
    = map (interpretation_request img) (seq 0 n)
  /\ value (run_parallel_interpretations svc img n completion)
      = match n with
        | O => Exc max_workers_error
        | S _ => Ret (omap (fun i => successful_text svc (interpretation_request img i))
                           (seq 0 n))
        end.
Proof.
  intros Hc. split.
  - apply run_parallel_interpretations_requests.
  - by apply run_parallel_interpretations_value.
Qed.

Lemma failed_interpretations_are_dropped_witness :
  requests (trace (run_parallel_interpretations example_service [] 3 [2; 0; 1]%nat))
    = map (interpretation_request []) (seq 0 3)
  /\ value (run_parallel_interpretations example_service [] 3 [2; 0; 1]%nat)
      = Ret (omap (fun i => successful_text example_service
                              (interpretation_request [] i))
                  (seq 0 3)).
Proof.
  apply (failed_interpretations_are_dropped example_service [] 3 [2; 0; 1]%nat).
  apply (bool_decide_unpack _). by vm_compute.
Defined.

(** ** Temperatures of the passes *)

Lemma trace_gather {A} (tasks : list (M A)) :
  trace (gather tasks) = flat_map trace tasks.
Proof.
  induction tasks as [|[t r] tasks IH]; simpl; [done|].
  destruct (gather tasks) as [ts rs]. rewrite trace_pair in *. by rewrite IH.
Qed.

Lemma requests_flat_map_calls {A} svc (req : A -> request) (l : list A) :
  requests (flat_map trace (map (fun a => call_model svc (req a)) l)) = map req l.
Proof.
  induction l as [|a l IH]; simpl; [done|].
  rewrite call_model_spec, trace_pair, requests_app, IH. done.
Qed.

Lemma map_const_repeat {A B} (b : B) (l : list A) :
  map (fun _ => b) l = repeat b (length l).
Proof. induction l as [|a l IH]; simpl; [done|]. by rewrite IH. Qed.

Lemma temperature_of_pass_inj i j :
  temperature_of_pass i = temperature_of_pass j -> i = j.
Proof. unfold temperature_of_pass. lia. Qed.

(** C6, as the specification states it, fails for the fan-out of
    [v1_async_interpretation.py]: its requests all carry the temperature
    0.2. *)
Lemma v1_requests_share_one_temperature :
  ~ (forall svc img n i r,
       requests (trace (V1.run_parallel_interpretations svc img n)) !! i = Some r ->
       req_temperature r = temperature_of_pass i).
Proof.
  intros H.
  specialize (H (fun _ => Returned []) [] 1%nat 0%nat
                (Request (initial_prompt []) false 2) eq_refl).
  vm_compute in H. discriminate H.
Qed.

(** C6, amended. For every image and count N the interpretation fan-out
    issues N requests.  In [streamlit_demo_0.py] and in the first program of
    [v2_adding_google_search_on_v1.py] the request of index i carries the
    temperature 0.7 + 0.2 i, so the passes all differ in temperature; in
    [v1_async_interpretation.py] and in the second program of
    [v2_adding_google_search_on_v1.py] every request carries the fixed
    temperature 0.2. *)
Theorem interpretation_requests svc (img : image) (n : nat) :
  (forall completion,
     requests (trace (run_parallel_interpretations svc img n completion))
     = map (fun i => Request (initial_prompt img) false (7 + Z.of_nat i * 2)) (seq 0 n))
  /\ requests (trace (V2.run_parallel_interpretations svc img n))
     = map (fun i => Request (initial_prompt img) false (7 + Z.of_nat i * 2)) (seq 0 n)
  /\ NoDup (map (fun i => 7 + Z.of_nat i * 2) (seq 0 n))
  /\ requests (trace (V1.run_parallel_interpretations svc img n))
     = repeat (Request (initial_prompt img) false 2) n
  /\ requests (trace (V3.run_parallel_interpretations svc img n))
     = repeat (Request (initial_prompt img) false 2) n.
Proof.
  split; [intros; apply run_parallel_interpretations_requests|].
  split; [|split; [|split]].
  - unfold V2.run_parallel_interpretations, V2.generate_interpretation.
    rewrite trace_gather, map_map.
    apply (requests_flat_map_calls svc (interpretation_request img)).
  - assert (Inj eq eq temperature_of_pass) as Hinj
      by (intros i j; apply temperature_of_pass_inj).
    apply (NoDup_fmap_2 temperature_of_pass), NoDup_seq.
  - unfold V1.run_parallel_interpretations, V1.generate_interpretation.
    rewrite trace_gather, map_map.
    rewrite (requests_flat_map_calls svc (fun _ => Request (initial_prompt img) false 2)).
    by rewrite map_const_repeat, length_seq.
  - unfold V3.run_parallel_interpretations, V3.generate_interpretation.
    rewrite trace_gather.
    rewrite (requests_flat_map_calls svc (fun _ => Request (initial_prompt img) false 2)).
    by rewrite map_const_repeat, length_seq.
Qed.

(** ** Verification fan-out *)

Lemma verify_task_spec svc (p : Z * contents) :
  verify_task svc p
  = ([generate_content (Request p.2 true 2)],
     match svc (Request p.2 true 2) with
     | Returned text => Ret (p.1, text)
     | Raised e => Exc e
     end).
Proof.
  unfold verify_task. rewrite call_model_spec.
  destruct (svc (Request p.2 true 2)); [|done].
  by rewrite bind_ret.
Qed.

Lemma verification_futures svc (medicine_groups : list group) :
  map (fun kt : (Z * contents) * M (Z * str) => (kt.1, value kt.2))
      (map (fun prompt => (prompt, verify_task svc prompt))
           (map (fun g => (group_position g,
                           verification_prompt (group_position g) (group_text g)))
                medicine_groups))
  = map (verification_future svc) medicine_groups.
Proof.
  rewrite !map_map. apply map_ext. intros g. simpl.
  by rewrite verify_task_spec.
Qed.

Lemma verification_submits svc (medicine_groups : list group) :
  flat_map (fun kt : (Z * contents) * M (Z * str) => trace kt.2)
      (map (fun prompt => (prompt, verify_task svc prompt))
           (map (fun g => (group_position g,
                           verification_prompt (group_position g) (group_text g)))
                medicine_groups))
  = map (fun g => generate_content (verification_request g)) medicine_groups.
Proof.
  induction medicine_groups as [|g gs IH]; simpl; [done|].
  by rewrite IH, verify_task_spec.
Qed.

Lemma fold_left_append {A B} (f : A -> B) l acc :
  fold_left (fun s a => s ++ [f a]) l acc = acc ++ map f l.
Proof.
  revert acc. induction l as [|a l IH]; intros acc; simpl.
  - by rewrite app_nil_r.
  - by rewrite IH, <- app_assoc.
Qed.

Lemma verify_medicine_groups_unfold svc medicine_groups completion :
  verify_medicine_groups svc medicine_groups completion
  = match medicine_groups with
    | [] => ([], Exc max_workers_error)
    | _ :: _ =>
        (map (fun g => generate_content (verification_request g)) medicine_groups
           ++ flat_map verification_notice
                (as_completed (map (verification_future svc) medicine_groups) completion),
         Ret (sort by_position
                (map collected
                   (as_completed (map (verification_future svc) medicine_groups)
                      completion))))
    end.
Proof.
  unfold verify_medicine_groups, thread_pool_executor.
  destruct medicine_groups as [|g gs]; [done|].
  replace (Z.min 6 (Z.of_nat (length (map
             (fun g => (group_position g,
                        verification_prompt (group_position g) (group_text g)))
             (g :: gs)))) <=? 0)
    with false by (symmetry; apply Z.leb_gt; simpl length; lia).
  rewrite submit_all_spec, bind_ret.
  rewrite verification_futures, verification_submits.
  rewrite (for_fold_total _ verification_notice (fun s a => s ++ [collected a])).
  - rewrite trace_pair, value_pair, fold_left_append, bind_ret.
    unfold ret. rewrite trace_pair, value_pair, app_nil_r. done.
  - intros s [prompt [[position result]|e]]; reflexivity.
Qed.

Lemma collected_future svc g :
  collected (verification_future svc g) = verification_entry svc g.
Proof.
  unfold collected, verification_future, verification_entry. simpl.
  by destruct (svc (verification_request g)).
Qed.

Lemma NoDup_fst_inj {A B} (l : list (A * B)) x y1 y2 :
  NoDup (l.*1) -> (x, y1) ∈ l -> (x, y2) ∈ l -> y1 = y2.
Proof.
  induction l as [|[a b] l IH]; csimpl; intros Hnd H1 H2.
  - by apply elem_of_nil in H1.
  - apply NoDup_cons in Hnd as [Ha Hnd].
    apply elem_of_cons in H1 as [H1|H1]; apply elem_of_cons in H2 as [H2|H2].
    + congruence.
    + injection H1 as -> ->. exfalso. apply Ha.
      apply list_elem_of_fmap. by exists (a, y2).
    + injection H2 as -> ->. exfalso. apply Ha.
      apply list_elem_of_fmap. by exists (a, y1).
    + by apply IH.
Qed.

Lemma sort_by_position_sorted_entries (l : list (Z * str)) :
  StronglySorted (fun a b => a.1 <= b.1) (sort by_position l).
Proof. apply (sort_by_key_sorted fst). Qed.

Lemma verification_entries_perm svc (medicine_groups : list group) completion :
  completion ≡ₚ seq 0 (length medicine_groups) ->
  map collected (as_completed (map (verification_future svc) medicine_groups) completion)
  ≡ₚ map (verification_entry svc) medicine_groups.
Proof.
  intros Hc.
  rewrite <- (map_ext _ _ (collected_future svc)).
  rewrite <- (map_map (verification_future svc) collected).
  apply (fmap_Permutation collected), as_completed_perm.
  by rewrite length_map.
Qed.

(** C4, as the specification states it, fails on the empty list of groups:
    the pool refuses zero workers and the fan-out raises. *)
Lemma verification_of_no_group_raises :
  ~ (forall svc medicine_groups completion,
       completion ≡ₚ seq 0 (length medicine_groups) ->
       exists results,
         value (verify_medicine_groups svc medicine_groups completion) = Ret results
         /\ length results = length medicine_groups).
Proof.
  intros H. destruct (H example_service [] [] (reflexivity _)) as (results & Hr & _).
  vm_compute in Hr. discriminate Hr.
Qed.

(** C4, amended. For every list of groups that is not empty, the
    verification fan-out requests each group once and returns one entry for
    each group, with the position of the group, sorted by ascending
    position, also when calls of the model raise: the entry of a call that
    raises carries the captured error text, and the fan-out does not raise.
    When the positions of the groups are distinct the result is the list of
    the entries of the groups sorted by position.  In the later variants
    [verify_medicine_name] likewise answers with the captured error text. *)
Theorem verification_keeps_every_group svc (medicine_groups : list group)
    (completion : list nat) :
  medicine_groups <> [] ->
  completion ≡ₚ seq 0 (length medicine_groups) ->
  (exists results,
     value (verify_medicine_groups svc medicine_groups completion) = Ret results
     /\ results ≡ₚ map (verification_entry svc) medicine_groups
     /\ length results = length medicine_groups
     /\ StronglySorted (fun a b => a.1 <= b.1) results
     /\ (NoDup (map group_position medicine_groups) ->
         results = sort by_position (map (verification_entry svc) medicine_groups)))
  /\ requests (trace (verify_medicine_groups svc medicine_groups completion))
     = map verification_request medicine_groups
  /\ (forall medicine_name,
        value (V2.verify_medicine_name svc medicine_name)
        = Ret match svc (Request (name_prompt medicine_name) true 1) with
              | Returned text => text
              | Raised e => lit "Error verifying medicine: " ++ exn_str e
              end).
Proof.
  intros Hne Hc. rewrite verify_medicine_groups_unfold.
  destruct medicine_groups as [|g gs]; [done|].
  pose proof (verification_entries_perm svc (g :: gs) completion Hc) as Hperm.
  rewrite trace_pair, value_pair. split; [|split].
  - eexists. split; [done|]. split; [by rewrite sort_perm|].
    split; [by rewrite length_sort, Hperm, length_map|].
    split; [apply sort_by_position_sorted_entries|].
    intros Hnd.
    apply (StronglySorted_unique_strong (fun a b : Z * str => a.1 <= b.1));
      try apply sort_by_position_sorted_entries; [|by rewrite !sort_perm].
    intros [p x1] [p' x2] H1 H2 Hle Hge. simpl in Hle, Hge.
    assert (p = p') as <- by lia. f_equal.
    rewrite sort_perm, Hperm in H1. rewrite sort_perm in H2.
    apply (NoDup_fst_inj (map (verification_entry svc) (g :: gs)) p); [|done..].
    change (NoDup (map fst (map (verification_entry svc) (g :: gs)))).
    by rewrite map_map.
  - rewrite requests_app, <- (map_map verification_request generate_content).
    rewrite requests_generate, requests_none; [by rewrite app_nil_r|].
    by intros [prompt [[position result]|e]].
  - intros medicine_name. unfold V2.verify_medicine_name, emit.
    rewrite bind_ret. by destruct (svc _).
Qed.

Lemma verification_keeps_every_group_witness :
  exists results,
    value (verify_medicine_groups example_service
             [(1, lit "Medicine 1: [Napa: 80%]", []);
              (2, lit "Medicine 2: [Seclo: 70%]", [])] [1; 0]%nat) = Ret results
    /\ length results = 2%nat.
Proof.
  destruct (verification_keeps_every_group example_service
              [(1, lit "Medicine 1: [Napa: 80%]", []);
               (2, lit "Medicine 2: [Seclo: 70%]", [])] [1; 0]%nat)
    as [(results & Hv & _ & Hl & _) _].
  - discriminate.
  - apply (bool_decide_unpack _). by vm_compute.
  - exists results. by split.
Defined.

(** ** The page *)

Lemma emit_bind {B} e (k : M B) : (emit e ;;; k) = (e :: trace k, value k).
Proof. unfold emit. by rewrite bind_ret. Qed.

Lemma for_each_total {A} (body : A -> M unit) (ev : A -> list event) l :
  (forall a, body a = (ev a, Ret tt)) ->
  for_each l body = (flat_map ev l, Ret tt).
Proof.
  intros H. induction l as [|a l IH]; simpl; [done|].
  by rewrite H, bind_ret, IH.
Qed.

Ltac run_M :=
  cbv beta iota zeta delta [bind emit ret];
  repeat first [rewrite trace_pair | rewrite value_pair].

Lemma Forall_flat_map_events {A} (P : event -> Prop) (ev : A -> list event) l :
  (forall a, Forall P (ev a)) -> Forall P (flat_map ev l).
Proof.
  intros H. induction l as [|a l IH]; simpl; [constructor|].
  apply Forall_app. by split.
Qed.

Lemma absent_from_trace (e : event) t : Forall (fun e' => e' <> e) t -> e ∉ t.
Proof. rewrite Forall_forall. intros H He. by apply (H e He). Qed.

Lemma requests_nil : requests [] = [].
Proof. done. Qed.

Lemma requests_cons e t :
  requests (e :: t)
  = match e with generate_content r => r :: requests t | _ => requests t end.
Proof. by destruct e. Qed.

Lemma groups_nonempty c cs : group_similar_medicines (c :: cs) <> [].
Proof.
  intros H.
  assert (position c ∈ map group_position (group_similar_medicines (c :: cs))) as Hin.
  { apply group_positions_present. exists c. split; [apply list_elem_of_here|done]. }
  rewrite H in Hin. by apply elem_of_nil in Hin.
Qed.

(** The requests of an explicit trace. *)
Ltac count_requests :=
  repeat first
    [ rewrite requests_app | rewrite requests_cons | rewrite requests_nil
    | rewrite requests_none by done ];
  rewrite ?app_nil_r; cbn [app].

(** Two events differ: by their shape, or by the text they carry. *)
Ltac differs :=
  let H := fresh in
  intros H; first [discriminate H | vm_compute in H; discriminate H].

(** An event is none of the events of an explicit trace. *)
Ltac absent :=
  repeat first
    [ apply Forall_nil_2
    | apply Forall_cons_2; [differs|]
    | apply Forall_app_2
    | apply Forall_flat_map_events; intros ?
    | apply Forall_map, Forall_forall; intros ? _; differs
    | assumption ].

(** An event of an explicit trace. *)
Ltac present :=
  repeat first
    [ apply list_elem_of_here
    | apply list_elem_of_further
    | apply elem_of_app; right ].

(** The events of the interpretation pool are requests and notices. *)
Lemma interpretation_events (P : event -> Prop) svc img ci :
  (forall r, P (generate_content r)) ->
  (forall a b, P (st_write [a; b])) ->
  (forall a b c d, P (st_error [a; b; c; d])) ->
  Forall P (map (fun i => generate_content (interpretation_request img i)) (seq 0 5)
            ++ flat_map interpretation_notice
                 (as_completed (interpretation_futures_of svc img 5) ci)).
Proof.
  intros Hg Hw He. apply Forall_app. split.
  - apply Forall_map, Forall_forall. intros; apply Hg.
  - apply Forall_flat_map_events.
    intros [temp [r|e]]; repeat constructor; [apply Hw|apply He].
Qed.

(** The events of the verification pool likewise. *)
Lemma verification_events (P : event -> Prop) svc (gs : list group) cv :
  (forall r, P (generate_content r)) ->
  (forall a b, P (st_write [a; b])) ->
  (forall a b c d, P (st_error [a; b; c; d])) ->
  Forall P (map (fun g => generate_content (verification_request g)) gs
            ++ flat_map verification_notice
                 (as_completed (map (verification_future svc) gs) cv)).
Proof.
  intros Hg Hw He. apply Forall_app. split.
  - apply Forall_map, Forall_forall. intros; apply Hg.
  - apply Forall_flat_map_events.
    intros [prompt [[p r]|e]]; repeat constructor; [apply Hw|apply He].
Qed.

Lemma interpretation_pool_requests svc img ci :
  requests (map (fun i => generate_content (interpretation_request img i)) (seq 0 5)
            ++ flat_map interpretation_notice
                 (as_completed (interpretation_futures_of svc img 5) ci))
  = map (interpretation_request img) (seq 0 5).
Proof.
  rewrite requests_app, <- (map_map (interpretation_request img) generate_content).
  rewrite requests_generate, requests_none; [by rewrite app_nil_r|].
  by intros [temp [r|e]].
Qed.

Lemma verification_pool_requests svc (gs : list group) cv :
  requests (map (fun g => generate_content (verification_request g)) gs
            ++ flat_map verification_notice
                 (as_completed (map (verification_future svc) gs) cv))
  = map verification_request gs.
Proof.
  rewrite requests_app, <- (map_map verification_request generate_content).
  rewrite requests_generate, requests_none; [by rewrite app_nil_r|].
  by intros [prompt [[p r]|e]].
Qed.

(** C3. A run of the page (an image uploaded, the button pressed) takes the
    path of no medicine found, which shows the fixed report and issues no
    request after those of the interpretation passes (no grouping, no
    verification, no final synthesis), if and only if the extraction finds
    no candidate in the interpretations; otherwise the candidates are
    grouped, every group is submitted for verification and the final
    synthesis is requested. *)
Theorem no_medicines_path_iff_no_candidates svc (img : image) (ci cv : list nat) :
  exists all_interpretations,
    value (run_parallel_interpretations svc img 5 ci) = Ret all_interpretations
    /\ let medicine_candidates := extract_medicine_candidates all_interpretations in
       let run := main svc (Some img) true ci cv in
       (st_error [Txt no_medicines_message] ∈ trace run <-> medicine_candidates = [])
       /\ (medicine_candidates = [] ->
           value run = Ret tt
           /\ st_code no_medicines_report ∈ trace run
           /\ requests (trace run) = map (interpretation_request img) (seq 0 5)
           /\ forall k, st_write [Txt (lit "Grouped into "); Num k;
                                  Txt (lit " medicine positions")] ∉ trace run)
       /\ (medicine_candidates <> [] ->
           let medicine_groups := group_similar_medicines medicine_candidates in
           medicine_groups <> []
           /\ st_write [Txt (lit "Grouped into ");
                        Num (Z.of_nat (length medicine_groups));
                        Txt (lit " medicine positions")] ∈ trace run
           /\ exists formatted_results,
                requests (trace run)
                = map (interpretation_request img) (seq 0 5)
                    ++ map verification_request medicine_groups
                    ++ [Request (final_prompt formatted_results) true 1]).
Proof.
  unfold main.
  rewrite run_parallel_interpretations_unfold. cbv zeta.
  set (interps := map snd _).
  pose proof (interpretation_events
    (fun e => e <> st_error [Txt no_medicines_message]) svc img ci) as Hi1.
  pose proof (fun k => interpretation_events
    (fun e => e <> st_write [Txt (lit "Grouped into "); Num k;
                             Txt (lit " medicine positions")]) svc img ci) as Hi2.
  pose proof (interpretation_pool_requests svc img ci) as Hi3.
  set (t_i := _ ++ flat_map interpretation_notice _) in *.
  exists interps. split; [done|]. cbv zeta.
  clearbody t_i interps. run_M.
  rewrite (for_each_total _ (fun p =>
    [st_write [Txt (lit "### Pass "); Num p.1; Txt (lit " Interpretation")];
     st_code p.2])) by (by intros [i x]).
  run_M.
  destruct (extract_medicine_candidates interps) as [|c cs] eqn:E.
  - run_M.
    split; [|split; [|done]].
    + split; [done|]. intros _. present.
    + intros _. split; [done|]. split; [present|]. split.
      * rewrite requests_app, (requests_app t_i), Hi3. count_requests.
        done.
      * intros k. apply absent_from_trace.
        absent; apply Hi2; intros; differs.
  - pose proof (groups_nonempty c cs) as Hne.
    set (groups := group_similar_medicines (c :: cs)) in *.
    rewrite (for_each_total _ (fun g => [st_write [Txt (group_text g)]])) by done.
    rewrite verify_medicine_groups_unfold.
    destruct groups as [|g gs] eqn:Eg; [done|].
    pose proof (verification_events
      (fun e => e <> st_error [Txt no_medicines_message]) svc (g :: gs) cv) as Hv1.
    pose proof (verification_pool_requests svc (g :: gs) cv) as Hv3.
    set (t_v := _ ++ flat_map verification_notice _) in *.
    clearbody t_v. run_M. unfold format_final_results. rewrite call_model_spec.
    set (formatted := fold_left _ _ []). clearbody formatted.
    split; [|split; [done|]].
    + split; [|done]. intros Hin. exfalso. revert Hin. apply absent_from_trace.
      destruct (svc _) as [text|e]; run_M;
        (absent; [apply Hi1|apply Hv1]; intros; differs).
    + intros _. split; [done|]. split.
      * destruct (svc _) as [text|e]; run_M; present.
      * exists formatted.
        destruct (svc _) as [text|e]; run_M;
          rewrite requests_app, (requests_app t_i), Hi3;
          repeat (rewrite requests_app, ?(requests_app t_v), ?Hv3);
          count_requests; done.
Qed.

(** * Further properties *)

(** ** Decimal numerals *)

Lemma uint_digits d : all_of is_digit (lit (NilEmpty.string_of_uint d)).
Proof.
  induction d; simpl; [done|..]; apply all_of_cons; (split; [reflexivity|exact IHd]).
Qed.

Lemma uint_value_acc d acc :
  fold_left (fun a c => 10 * a + digit_value c) (lit (NilEmpty.string_of_uint d))
            (Z.pos acc)
  = Z.pos (Pos.of_uint_acc d acc).
Proof.
  revert acc. induction d; intros acc; simpl; [done|..];
    rewrite <- IHd; f_equal; unfold digit_value; simpl; lia.
Qed.

Lemma uint_value d :
  int_of_digits (lit (NilEmpty.string_of_uint d)) = Z.of_N (Pos.of_uint d).
Proof.
  unfold int_of_digits. induction d; simpl; [done|exact IHd|..];
    apply (uint_value_acc d).
Qed.

Lemma str_of_int_pos p :
  str_of_int (Z.pos p) = lit (NilEmpty.string_of_uint (Pos.to_uint p))
  \/ str_of_int (Z.pos p) = lit "0" /\ Pos.to_uint p = Decimal.Nil.
Proof.
  unfold str_of_int. simpl. unfold NilZero.string_of_uint.
  destruct (Pos.to_uint p); auto.
Qed.

(** [int(str(z)) = z] for a natural number. *)
Lemma int_of_str_of_int z : 0 <= z -> int_of_digits (str_of_int z) = z.
Proof.
  intros Hz. destruct z as [|p|p]; [done| |lia].
  pose proof (DecimalPos.Unsigned.of_to p) as Hp.
  destruct (str_of_int_pos p) as [->|[_ Hnil]].
  - by rewrite uint_value, Hp.
  - rewrite Hnil in Hp. discriminate Hp.
Qed.

(** [str(z)] of a natural number is a run of digits. *)
Lemma str_of_int_digits z :
  0 <= z -> str_of_int z <> [] /\ all_of is_digit (str_of_int z).
Proof.
  intros Hz. destruct z as [|p|p]; [done| |lia].
  destruct (str_of_int_pos p) as [E|[E _]]; rewrite E; [|done].
  split; [|apply uint_digits].
  intros Hnil. pose proof (DecimalPos.Unsigned.of_to p) as Hp.
  destruct (Pos.to_uint p); try discriminate Hnil. discriminate Hp.
Qed.

(** ** Stripping *)

Lemma drop_while_idem p s : drop_while p (drop_while p s) = drop_while p s.
Proof.
  induction s as [|c s IH]; simpl; [done|].
  destruct (p c) eqn:E; [done|]. simpl. by rewrite E.
Qed.

Lemma length_rstrip s : (length (rstrip s) <= length s)%nat.
Proof.
  unfold rstrip. rewrite length_rev.
  pose proof (length_drop_while is_space (rev s)) as H.
  by rewrite length_rev in H.
Qed.

(** What [rstrip] removes is a run of whitespace at the end. *)
Lemma rstrip_split s : exists w, s = rstrip s ++ w /\ all_of is_space w.
Proof.
  exists (rev (take_while is_space (rev s))). split.
  - unfold rstrip. rewrite <- rev_app_distr, take_drop_while. by rewrite rev_involutive.
  - unfold all_of. apply forallb_forall. intros c Hc. apply in_rev in Hc.
    pose proof (all_of_take_while is_space (rev s)) as H.
    unfold all_of in H. rewrite forallb_forall in H. by apply H.
Qed.

Lemma rstrip_idem s : rstrip (rstrip s) = rstrip s.
Proof. unfold rstrip. by rewrite rev_involutive, drop_while_idem. Qed.

Lemma lstrip_rstrip_lstrip s : lstrip (rstrip (lstrip s)) = rstrip (lstrip s).
Proof.
  destruct (rstrip_split (lstrip s)) as (w & Hw & _).
  destruct (rstrip (lstrip s)) as [|c r] eqn:E; [done|].
  unfold lstrip in *. simpl.
  rewrite (drop_while_head is_space s c (r ++ w)); [done|].
  by rewrite Hw.
Qed.

(** [s.strip().strip() == s.strip()] *)
Lemma strip_idem s : strip (strip s) = strip s.
Proof. unfold strip. by rewrite lstrip_rstrip_lstrip, rstrip_idem. Qed.

(** A text that [strip] leaves alone does not begin with whitespace. *)
Lemma stripped_lstrip s : strip s = s -> lstrip s = s.
Proof.
  intros H. unfold strip in H.
  pose proof (length_rstrip (lstrip s)) as H1. rewrite H in H1.
  pose proof (length_take_drop_while is_space s) as H2.
  unfold lstrip in *. apply take_while_nil.
  destruct (take_while is_space s); [done|]. simpl in H2. lia.
Qed.

Lemma all_of_rev p s : all_of p (rev s) <-> all_of p s.
Proof.
  unfold all_of. rewrite !forallb_forall.
  split; intros H c Hc; apply H; [by apply in_rev in Hc|by apply in_rev].
Qed.

Lemma all_of_strip p s : all_of p s -> all_of p (strip s).
Proof.
  intros H. unfold strip, rstrip, lstrip.
  by apply all_of_rev, all_of_drop_while, all_of_rev, all_of_drop_while.
Qed.

(** ** More on the extraction *)

(** X1. The candidates of a list of interpretations are those of its first
    part followed by those of the rest: a candidate does not depend on the
    interpretations around the one that carries its line. *)
Theorem extraction_of_concatenation (first rest : list str) :
  extract_medicine_candidates (first ++ rest)
  = extract_medicine_candidates first ++ extract_medicine_candidates rest.
Proof.
  rewrite !extract_medicine_candidates_lines. unfold lines_of.
  by rewrite flat_map_app, omap_app.
Qed.

(** A line that gives a candidate begins with a decimal digit. *)
Lemma candidate_of_line_begins_with_digit line :
  begins_with_digit line = false -> candidate_of_line line = None.
Proof.
  intros H. unfold candidate_of_line. rewrite candidate_re_closed.
  destruct line as [|c rest]; [done|]. simpl in *. by rewrite H.
Qed.

Lemma omap_filter_some {A B} (f : A -> option B) (p : A -> bool) (l : list A) :
  (forall a, p a = false -> f a = None) ->
  omap f (filter (fun a => p a) l) = omap f l.
Proof.
  intros H. induction l as [|a l IH]; [done|].
  rewrite filter_cons. destruct (decide (p a)) as [Hp|Hp]; csimpl.
  - by rewrite IH.
  - rewrite H, IH; [done|]. by destruct (p a).
Qed.

Lemma length_omap_le {A B} (f : A -> option B) (l : list A) :
  (length (omap f l) <= length l)%nat.
Proof.
  induction l as [|a l IH]; csimpl; [done|].
  destruct (f a); simpl; lia.
Qed.

(** X2. Only lines that begin with a decimal digit give candidates, the
    lines being those of each interpretation text stripped of its leading
    and trailing whitespace (an indented first line counts without its
    indentation).  The candidates extracted are those read off the lines
    that begin with a digit, one for each such line of the format, so there
    are no more candidates than such lines: an empty line, a bulleted line,
    a bold line or an indented line after the first gives none. *)
Theorem lines_without_leading_digit_are_skipped (interpretations : list str) :
  extracted (filter (fun line => begins_with_digit line) (lines_of interpretations))
            (extract_medicine_candidates interpretations)
  /\ (length (extract_medicine_candidates interpretations)
      <= length (filter (fun line => begins_with_digit line)
                        (lines_of interpretations)))%nat.
Proof.
  rewrite extract_medicine_candidates_lines.
  rewrite <- (omap_filter_some candidate_of_line begins_with_digit)
    by apply candidate_of_line_begins_with_digit.
  split; [apply extracted_omap|apply length_omap_le].
Qed.

(** X3. The name of every extracted candidate is stripped (calling [strip]
    on it changes nothing) and holds no line feed. *)
Theorem extracted_names_are_stripped (interpretations : list str) :
  Forall (fun c => strip (name c) = name c /\ all_of not_newline (name c))
         (extract_medicine_candidates interpretations).
Proof.
  rewrite extract_medicine_candidates_lines. apply Forall_forall.
  intros c Hc. apply list_elem_of_omap in Hc as (line & _ & Hc).
  apply candidate_of_line_reads in Hc.
  destruct Hc as (n & ws1 & text & ws2 & pct & rest & Hf & _ & _ & -> & _).
  split; [apply strip_idem|]. apply all_of_strip. by destruct Hf.
Qed.

(** A lazy repetition stops at the first split the rest of the pattern
    accepts. *)
Lemma star_lazy_first {R} p t r (k : str -> str -> option R) x :
  all_of p t ->
  (forall m c r', t = m ++ c :: r' -> k m (c :: r' ++ r) = None) ->
  k t r = Some x ->
  star_lazy p (t ++ r) k = Some x.
Proof.
  revert k. induction t as [|c t IH]; intros k Ht Hk Hx.
  - simpl. destruct r; simpl; by rewrite Hx.
  - apply all_of_cons in Ht as [Hc Ht]. simpl.
    rewrite (Hk [] c t eq_refl), Hc.
    apply IH; [done| |done].
    intros m c' r' ->. apply (Hk (c :: m) c' r'). done.
Qed.

Lemma name_scan_first_colon t s5 g2 :
  all_of not_newline t -> all_of not_colon t -> percent_tail s5 = Some g2 ->
  name_scan (t ++ ":"%char :: s5) = Some (t, g2).
Proof.
  intros Ht Hc Hp. apply star_lazy_first; [done| |by simpl; rewrite Hp].
  intros m c r' ->. simpl.
  apply all_of_app in Hc as [_ Hc]. apply all_of_cons in Hc as [Hc _].
  unfold not_colon in Hc. by destruct (is_char ":" c).
Qed.

(** X4. A line written for a candidate as [<position>. <name>: <confidence>%]
    is read back as that candidate, when the position and the confidence
    are natural numbers and the name is stripped and holds no colon and no
    line feed. *)
Theorem candidate_line_round_trip (c : candidate) :
  0 <= position c -> 0 <= confidence c ->
  strip (name c) = name c ->
  all_of not_newline (name c) -> all_of not_colon (name c) ->
  candidate_of_line (candidate_line c) = Some c.
Proof.
  destruct c as [nm k p]. simpl. intros Hp Hk Hs Hnl Hcol.
  destruct (str_of_int_digits p Hp) as [Hpne Hpd].
  destruct (str_of_int_digits k Hk) as [Hkne Hkd].
  assert (percent_tail (lit " " ++ str_of_int k ++ "%"%char :: []) = Some (str_of_int k))
    as Htail by (by apply percent_tail_complete).
  unfold candidate_of_line.
  change (candidate_line (Candidate nm k p))
    with (str_of_int p ++ "."%char :: lit " "
            ++ nm ++ ":"%char :: lit " " ++ str_of_int k ++ "%"%char :: []).
  rewrite position_re_closed, candidate_re_closed.
  rewrite !take_while_stop, !drop_while_stop by done.
  destruct (str_of_int p) as [|d ds] eqn:Ep; [done|].
  simpl is_char. cbv iota.
  change (take_while is_space
            (lit " " ++ nm ++ ":"%char :: lit " " ++ str_of_int k ++ ["%"%char]))
    with (" "%char :: take_while is_space
            (nm ++ ":"%char :: lit " " ++ str_of_int k ++ ["%"%char])).
  change (drop_while is_space
            (lit " " ++ nm ++ ":"%char :: lit " " ++ str_of_int k ++ ["%"%char]))
    with (drop_while is_space (nm ++ ":"%char :: lit " " ++ str_of_int k ++ ["%"%char])).
  rewrite drop_while_before by done.
  fold (lstrip nm). rewrite (stripped_lstrip nm Hs).
  rewrite (name_scan_first_colon nm _ (str_of_int k)) by done.
  rewrite Hs, <- Ep, !int_of_str_of_int by done. done.
Qed.

Lemma candidate_line_round_trip_witness :
  candidate_of_line (candidate_line (Candidate (lit "Napa Extra") 80 1))
  = Some (Candidate (lit "Napa Extra") 80 1).
Proof.
  apply (candidate_line_round_trip (Candidate (lit "Napa Extra") 80 1));
    simpl; try lia; reflexivity.
Defined.

(** ** More on the grouping *)

Lemma groups_concat l :
  concat (map group_members (group_similar_medicines l)) = sort_by_position l.
Proof.
  rewrite group_members_at_position. apply buckets_concat.
  - apply group_positions_sorted.
  - apply sort_by_position_sorted.
  - intros c Hc. apply group_positions_present. exists c. split; [|done].
    by rewrite <- (sort_by_position_perm l).
Qed.

Lemma group_members_filter l :
  Forall (fun g => group_members g = at_position (group_position g) l
                   /\ exists c, c ∈ l /\ position c = group_position g)
         (group_similar_medicines l).
Proof.
  apply Forall_forall. intros g Hg. split.
  - unfold group_similar_medicines in Hg.
    apply list_elem_of_In, in_map_iff in Hg as (p & <- & _).
    unfold group_members, group_position. simpl.
    by rewrite position_groups_members, sort_by_position_stable.
  - apply group_positions_present.
    apply list_elem_of_In, in_map, list_elem_of_In. done.
Qed.

Lemma length_concat_ge {A} (ls : list (list A)) :
  Forall (fun l => l <> []) ls -> (length ls <= length (concat ls))%nat.
Proof.
  induction 1 as [|l ls Hl _ IH]; simpl; [done|].
  rewrite length_app. destruct l; [done|]. simpl. lia.
Qed.

(** X5. No group is empty, the groups together hold as many candidates as
    the list, so there are at most as many groups as candidates, and there
    is no group exactly when there is no candidate. *)
Theorem groups_are_nonempty_and_cover (medicine_candidates : list candidate) :
  let groups := group_similar_medicines medicine_candidates in
  Forall (fun g => group_members g <> []) groups
  /\ length (concat (map group_members groups)) = length medicine_candidates
  /\ (length groups <= length medicine_candidates)%nat
  /\ (groups = [] <-> medicine_candidates = []).
Proof.
  cbv zeta.
  assert (Forall (fun g => group_members g <> []) (group_similar_medicines medicine_candidates))
    as Hne.
  { eapply Forall_impl; [apply group_members_filter|].
    intros g [-> (c & Hc & Hp)] Hnil.
    assert (c ∈ at_position (group_position g) medicine_candidates) as Hin
      by (by apply list_elem_of_filter).
    rewrite Hnil in Hin. by apply elem_of_nil in Hin. }
  assert (length (concat (map group_members (group_similar_medicines medicine_candidates)))
          = length medicine_candidates) as Hlen
    by (by rewrite groups_concat, sort_by_position_perm).
  split; [done|]. split; [done|]. split.
  - rewrite <- Hlen, <- (length_map group_members).
    apply length_concat_ge. by apply Forall_map.
  - split.
    + intros Hnil. rewrite Hnil in Hlen. simpl in Hlen.
      by destruct medicine_candidates.
    + by intros ->.
Qed.

(** A list that is sorted by the key already is left as it is. *)
Lemma sort_sorted_id {A} (key : A -> Z) l :
  StronglySorted (fun a b => key a <= key b) l -> sort (key_leb key) l = l.
Proof.
  induction 1 as [|x l Hl IH Hx]; simpl; [done|]. rewrite IH.
  destruct l as [|y l']; simpl; [done|].
  apply Forall_cons in Hx as [Hxy _].
  unfold key_leb. by rewrite (proj2 (Z.leb_le _ _) Hxy).
Qed.

Lemma sort_by_position_idem l :
  sort_by_position (sort_by_position l) = sort_by_position l.
Proof. apply (sort_sorted_id position), sort_by_position_sorted. Qed.

(** The grouping sorts its argument in place; grouping the sorted list
    again gives the same groups. *)
Lemma grouping_after_its_own_sort (medicine_candidates : list candidate) :
  group_similar_medicines (sort_by_position medicine_candidates)
  = group_similar_medicines medicine_candidates.
Proof. unfold group_similar_medicines. by rewrite sort_by_position_idem. Qed.

(** The groups, written from the candidates of each position. *)
Lemma group_similar_medicines_normal l :
  group_similar_medicines l
  = map (fun p => (p, rendered_group p (at_position p l), at_position p l))
        (map group_position (group_similar_medicines l)).
Proof.
  rewrite group_positions. unfold group_similar_medicines.
  apply map_ext. intros p.
  rewrite position_groups_members, sort_by_position_stable.
  unfold rendered_group, medicine_text. by rewrite <- !app_assoc.
Qed.

Lemma at_position_nonempty p l :
  at_position p l <> [] <-> exists c, c ∈ l /\ position c = p.
Proof.
  split.
  - intros H. destruct (at_position p l) as [|c r] eqn:E; [done|].
    assert (c ∈ at_position p l) as Hc by (rewrite E; apply list_elem_of_here).
    apply list_elem_of_filter in Hc as [Hp Hc]. eauto.
  - intros (c & Hc & Hp) Hnil.
    assert (c ∈ at_position p l) as Hin by (by apply list_elem_of_filter).
    rewrite Hnil in Hin. by apply elem_of_nil in Hin.
Qed.

Lemma strictly_sorted_unique (l1 l2 : list Z) :
  StronglySorted Z.lt l1 -> StronglySorted Z.lt l2 ->
  (forall p, p ∈ l1 <-> p ∈ l2) -> l1 = l2.
Proof.
  intros H1 H2 Hin.
  assert (forall l, StronglySorted Z.lt l -> NoDup l) as Hnd.
  { induction 1 as [|x l Hl IH Hx]; constructor; [|done].
    intros Hx'. rewrite Forall_forall in Hx. specialize (Hx x Hx'). lia. }
  apply (StronglySorted_unique Z.le).
  - eapply StronglySorted_mono; [|exact H1]. intros; lia.
  - eapply StronglySorted_mono; [|exact H2]. intros; lia.
  - apply NoDup_Permutation; auto.
Qed.

(** X6. The groups depend only on the candidates that carry each position,
    in their order: two lists that agree position by position give the same
    groups, however the positions are interleaved in them. *)
Theorem grouping_ignores_interleaving (l l' : list candidate) :
  (forall p, at_position p l = at_position p l') ->
  group_similar_medicines l = group_similar_medicines l'.
Proof.
  intros H.
  rewrite (group_similar_medicines_normal l), (group_similar_medicines_normal l').
  assert (map group_position (group_similar_medicines l)
          = map group_position (group_similar_medicines l')) as ->.
  { apply strictly_sorted_unique; try apply group_positions_sorted.
    intros p. rewrite !group_positions_present, <- !at_position_nonempty.
    by rewrite H. }
  apply map_ext. intros p. by rewrite H.
Qed.

Lemma grouping_ignores_interleaving_witness :
  group_similar_medicines
    [Candidate (lit "Seclo") 70 2; Candidate (lit "Napa") 80 1;
     Candidate (lit "Seclo") 85 2]
  = group_similar_medicines
      [Candidate (lit "Seclo") 70 2; Candidate (lit "Seclo") 85 2;
       Candidate (lit "Napa") 80 1].
Proof.
  apply grouping_ignores_interleaving. intros p. unfold at_position.
  rewrite !filter_cons, !filter_nil. simpl.
  destruct (decide (2 = p)), (decide (1 = p)); try done; lia.
Defined.

(** ** Verification of the groups of a grouping *)

Lemma StronglySorted_map {A B} (R : B -> B -> Prop) (f : A -> B) l :
  StronglySorted (fun a b => R (f a) (f b)) l -> StronglySorted R (map f l).
Proof.
  induction 1 as [|x l Hl IH Hx]; simpl; [constructor|].
  constructor; [done|]. by apply Forall_map.
Qed.

Lemma StronglySorted_of_map {A B} (R : B -> B -> Prop) (f : A -> B) l :
  StronglySorted R (map f l) -> StronglySorted (fun a b => R (f a) (f b)) l.
Proof.
  induction l as [|x l IH]; simpl; intros H; [constructor|].
  apply StronglySorted_inv in H as [Hl Hx]. constructor; [by apply IH|].
  apply Forall_forall. intros b Hb. rewrite Forall_forall in Hx.
  apply Hx, list_elem_of_In, in_map, list_elem_of_In. done.
Qed.

Lemma NoDup_strictly_sorted (l : list Z) : StronglySorted Z.lt l -> NoDup l.
Proof.
  induction 1 as [|x l Hl IH Hx]; constructor; [|done].
  intros Hx'. rewrite Forall_forall in Hx. specialize (Hx x Hx'). lia.
Qed.

(** The final sort of the verification finds the entries of the groups of a
    grouping in place. *)
Lemma collected_verifications_in_place svc (medicine_candidates : list candidate)
    (completion : list nat) :
  completion ≡ₚ seq 0 (length (group_similar_medicines medicine_candidates)) ->
  collected_verifications svc (group_similar_medicines medicine_candidates) completion
  = map (verification_entry svc) (group_similar_medicines medicine_candidates).
Proof.
  intros Hc. unfold collected_verifications.
  pose proof (verification_entries_perm svc _ completion Hc) as Hperm.
  pose proof (group_positions_sorted medicine_candidates) as Hs.
  set (gs := group_similar_medicines medicine_candidates) in *. clearbody gs.
  assert (StronglySorted (fun a b : Z * str => a.1 <= b.1)
            (map (verification_entry svc) gs)) as Hsorted.
  { apply StronglySorted_map. apply StronglySorted_of_map in Hs.
    eapply StronglySorted_mono; [|exact Hs].
    intros a b. unfold verification_entry. simpl. lia. }
  apply (StronglySorted_unique_strong (fun a b : Z * str => a.1 <= b.1));
    [|apply sort_by_position_sorted_entries|done|by rewrite sort_perm].
  intros [p x1] [p' x2] H1 H2 Hle Hge. simpl in Hle, Hge.
  assert (p = p') as <- by lia. f_equal.
  rewrite sort_perm, Hperm in H1.
  apply (NoDup_fst_inj (map (verification_entry svc) gs) p); [|done..].
  change (NoDup (map fst (map (verification_entry svc) gs))).
  rewrite map_map. simpl. by apply (NoDup_strictly_sorted (map group_position gs)).
Qed.

(** X7. The groups of a grouping, submitted to the verification fan-out,
    come back as one entry per group in the order of the groups, whatever
    the order in which the calls complete: the final sort finds them in
    place. *)
Theorem verification_follows_the_groups svc (medicine_candidates : list candidate)
    (completion : list nat) :
  medicine_candidates <> [] ->
  completion ≡ₚ seq 0 (length (group_similar_medicines medicine_candidates)) ->
  value (verify_medicine_groups svc (group_similar_medicines medicine_candidates)
           completion)
  = Ret (map (verification_entry svc) (group_similar_medicines medicine_candidates)).
Proof.
  intros Hne Hc.
  rewrite <- (collected_verifications_in_place svc medicine_candidates completion Hc).
  rewrite verify_medicine_groups_unfold.
  destruct medicine_candidates as [|c cs]; [done|].
  pose proof (groups_nonempty c cs) as Hg.
  by destruct (group_similar_medicines (c :: cs)).
Qed.

Lemma verification_follows_the_groups_witness :
  value (verify_medicine_groups example_service
           (group_similar_medicines
              [Candidate (lit "Seclo") 70 2; Candidate (lit "Napa") 80 1])
           [1; 0]%nat)
  = Ret (map (verification_entry example_service)
           (group_similar_medicines
              [Candidate (lit "Seclo") 70 2; Candidate (lit "Napa") 80 1])).
Proof.
  apply (verification_follows_the_groups example_service
           [Candidate (lit "Seclo") 70 2; Candidate (lit "Napa") 80 1] [1; 0]%nat).
  - discriminate.
  - apply (bool_decide_unpack _). by vm_compute.
Defined.

(** ** More on the page *)

(** The requests and the result of a run of the page. *)
Lemma main_summary svc (img : image) (ci cv : list nat) :
  let medicine_candidates :=
    extract_medicine_candidates (collected_interpretations svc img ci) in
  let medicine_groups := group_similar_medicines medicine_candidates in
  let verification_results := collected_verifications svc medicine_groups cv in
  requests (trace (main svc (Some img) true ci cv))
  = map (interpretation_request img) (seq 0 5)
      ++ match medicine_candidates with
         | [] => []
         | _ :: _ => map verification_request medicine_groups
                       ++ [final_request verification_results]
         end
  /\ value (main svc (Some img) true ci cv)
     = match medicine_candidates with
       | [] => Ret tt
       | _ :: _ =>
           match svc (final_request verification_results) with
           | Returned _ => Ret tt
           | Raised e => Exc e
           end
       end.
Proof.
  cbv zeta. unfold collected_interpretations, collected_verifications, main.
  rewrite run_parallel_interpretations_unfold. cbv zeta.
  set (interps := map snd _).
  pose proof (interpretation_pool_requests svc img ci) as Hi3.
  set (t_i := _ ++ flat_map interpretation_notice _) in *.
  clearbody t_i interps. run_M.
  rewrite (for_each_total _ (fun p =>
    [st_write [Txt (lit "### Pass "); Num p.1; Txt (lit " Interpretation")];
     st_code p.2])) by (by intros [i x]).
  run_M.
  destruct (extract_medicine_candidates interps) as [|c cs] eqn:E.
  - run_M. split; [|done].
    rewrite requests_app, (requests_app t_i), Hi3. count_requests. done.
  - pose proof (groups_nonempty c cs) as Hne.
    rewrite (for_each_total _ (fun g => [st_write [Txt (group_text g)]])) by done.
    rewrite verify_medicine_groups_unfold.
    destruct (group_similar_medicines (c :: cs)) as [|g gs] eqn:Eg; [done|].
    pose proof (verification_pool_requests svc (g :: gs) cv) as Hv3.
    set (t_v := _ ++ flat_map verification_notice _) in *.
    clearbody t_v. run_M. unfold format_final_results. rewrite call_model_spec.
    fold (formatted_results_of
            (sort by_position
               (map collected
                  (as_completed (map (verification_future svc) (g :: gs)) cv)))).
    fold (final_request
            (sort by_position
               (map collected
                  (as_completed (map (verification_future svc) (g :: gs)) cv)))).
    destruct (svc (final_request _)) as [text|e]; run_M;
      (split; [|done]);
      rewrite requests_app, (requests_app t_i), Hi3;
      repeat (rewrite requests_app, ?(requests_app t_v), ?Hv3);
      count_requests; done.
Qed.

Lemma collected_interpretations_perm svc img (ci : list nat) :
  ci ≡ₚ seq 0 5 ->
  collected_interpretations svc img ci = successful_interpretations svc img 5.
Proof.
  intros Hc.
  pose proof (run_parallel_interpretations_value svc img 5 ci Hc) as Hv.
  rewrite run_parallel_interpretations_unfold in Hv. cbv zeta in Hv.
  rewrite value_pair in Hv. by injection Hv.
Qed.

Lemma omap_all_none {A B} (f : A -> option B) (l : list A) :
  (forall a, a ∈ l -> f a = None) -> omap f l = [].
Proof.
  induction l as [|a l IH]; intros H; csimpl; [done|].
  rewrite (H a (list_elem_of_here _ _)). apply IH.
  intros b Hb. by apply H, list_elem_of_further.
Qed.

(** When every pass raises, nothing is collected, in whatever order the
    passes complete. *)
Lemma collected_interpretations_all_fail svc img (ci : list nat) :
  (forall i, (i < 5)%nat -> exists e, svc (interpretation_request img i) = Raised e) ->
  collected_interpretations svc img ci = [].
Proof.
  intros Hfail. unfold collected_interpretations.
  rewrite omap_all_none; [done|].
  intros f Hf. unfold as_completed in Hf.
  apply list_elem_of_omap in Hf as (j & _ & Hj).
  apply list_elem_of_lookup_2 in Hj. unfold interpretation_futures_of in Hj.
  apply list_elem_of_In, in_map_iff in Hj as (i & <- & Hi).
  apply in_seq in Hi. destruct (Hfail i) as [e He]; [lia|].
  unfold kept. simpl. by rewrite He.
Qed.

(** Without a candidate the page shows the error and the fixed report. *)
Lemma main_shows_no_medicines svc (img : image) (ci cv : list nat) :
  extract_medicine_candidates (collected_interpretations svc img ci) = [] ->
  st_error [Txt no_medicines_message] ∈ trace (main svc (Some img) true ci cv)
  /\ st_code no_medicines_report ∈ trace (main svc (Some img) true ci cv).
Proof.
  unfold collected_interpretations, main.
  rewrite run_parallel_interpretations_unfold. cbv zeta.
  set (interps := map snd _).
  set (t_i := _ ++ flat_map interpretation_notice _).
  clearbody t_i interps. intros E. run_M.
  rewrite (for_each_total _ (fun p =>
    [st_write [Txt (lit "### Pass "); Num p.1; Txt (lit " Interpretation")];
     st_code p.2])) by (by intros [i x]).
  run_M. rewrite E. run_M. split; present.
Qed.

Lemma last_skip_cons {A} (x y : A) l : last l = Some x -> last (y :: l) = Some x.
Proof. intros H. rewrite last_cons. by rewrite H. Qed.

Lemma last_skip_app {A} (x : A) l1 l2 : last l2 = Some x -> last (l1 ++ l2) = Some x.
Proof. intros H. rewrite last_app. by rewrite H. Qed.

(** The last event of an explicit trace. *)
Ltac last_event :=
  repeat first
    [ apply last_singleton
    | apply last_skip_cons
    | apply last_skip_app ].

(** X8. How a run that found candidates ends.  The final synthesis is not
    guarded: when its call raises, the page raises the exception of that
    call and the request is the last thing the run does, so that no elapsed
    time, no heading and no report is shown after it.  When its call
    returns a text, the page ends normally and the last thing it shows is
    that text. *)
Theorem page_ends_with_the_final_synthesis svc (img : image) (ci cv : list nat) :
  let medicine_candidates :=
    extract_medicine_candidates (collected_interpretations svc img ci) in
  let verification_results :=
    collected_verifications svc (group_similar_medicines medicine_candidates) cv in
  let run := main svc (Some img) true ci cv in
  medicine_candidates <> [] ->
  (forall e, svc (final_request verification_results) = Raised e ->
     value run = Exc e
     /\ last (trace run) = Some (generate_content (final_request verification_results)))
  /\ (forall text, svc (final_request verification_results) = Returned text ->
        value run = Ret tt /\ last (trace run) = Some (st_code text)).
Proof.
  cbv zeta. unfold collected_interpretations, collected_verifications, main.
  rewrite run_parallel_interpretations_unfold. cbv zeta.
  set (interps := map snd _).
  set (t_i := _ ++ flat_map interpretation_notice _) in *.
  clearbody t_i interps. run_M.
  rewrite (for_each_total _ (fun p =>
    [st_write [Txt (lit "### Pass "); Num p.1; Txt (lit " Interpretation")];
     st_code p.2])) by (by intros [i x]).
  run_M.
  destruct (extract_medicine_candidates interps) as [|c cs] eqn:E; [done|].
  intros _. pose proof (groups_nonempty c cs) as Hne.
  rewrite (for_each_total _ (fun g => [st_write [Txt (group_text g)]])) by done.
  rewrite verify_medicine_groups_unfold.
  destruct (group_similar_medicines (c :: cs)) as [|g gs] eqn:Eg; [done|].
  set (t_v := _ ++ flat_map verification_notice _) in *.
  clearbody t_v. run_M. unfold format_final_results. rewrite call_model_spec.
  fold (formatted_results_of
          (sort by_position
             (map collected
                (as_completed (map (verification_future svc) (g :: gs)) cv)))).
  fold (final_request
          (sort by_position
             (map collected
                (as_completed (map (verification_future svc) (g :: gs)) cv)))).
  split.
  - intros e ->. run_M. split; [done|]. last_event.
  - intros text ->. run_M. split; [done|]. last_event.
Qed.

Lemma page_ends_with_the_final_synthesis_witness :
  value (main final_failure_service (Some []) true [4; 2; 0; 1; 3]%nat [1; 0]%nat)
    = Exc (ApiError (lit "unavailable"))
  /\ value (main example_service (Some []) true [4; 2; 0; 1; 3]%nat [1; 0]%nat)
     = Ret tt
  /\ last (trace (main example_service (Some []) true [4; 2; 0; 1; 3]%nat [1; 0]%nat))
     = Some (st_code (lit "FINAL PRESCRIPTION MEDICINES:")).
Proof.
  destruct (page_ends_with_the_final_synthesis final_failure_service []
              [4; 2; 0; 1; 3]%nat [1; 0]%nat) as [Hraise _].
  { vm_compute. discriminate. }
  destruct (page_ends_with_the_final_synthesis example_service []
              [4; 2; 0; 1; 3]%nat [1; 0]%nat) as [_ Hreturn].
  { vm_compute. discriminate. }
  destruct (Hraise (ApiError (lit "unavailable")) eq_refl) as [H1 _].
  destruct (Hreturn (lit "FINAL PRESCRIPTION MEDICINES:") eq_refl) as [H2 H3].
  split; [exact H1|]. split; [exact H2|exact H3].
Defined.

(** X9. When every interpretation call raises, the page shows that no
    medicine was identified, with the fixed report, issues no request but
    those of the five passes and ends normally. *)
Theorem page_when_every_pass_fails svc (img : image) (ci cv : list nat) :
  (forall i, (i < 5)%nat -> exists e, svc (interpretation_request img i) = Raised e) ->
  st_error [Txt no_medicines_message] ∈ trace (main svc (Some img) true ci cv)
  /\ st_code no_medicines_report ∈ trace (main svc (Some img) true ci cv)
  /\ requests (trace (main svc (Some img) true ci cv))
     = map (interpretation_request img) (seq 0 5)
  /\ value (main svc (Some img) true ci cv) = Ret tt.
Proof.
  intros Hfail.
  pose proof (collected_interpretations_all_fail svc img ci Hfail) as Hnone.
  destruct (main_shows_no_medicines svc img ci cv) as [H1 H2];
    [by rewrite Hnone|].
  destruct (main_summary svc img ci cv) as [Hr Hv]. cbv zeta in Hr, Hv.
  rewrite Hnone in Hr, Hv.
  change (extract_medicine_candidates []) with (@nil candidate) in Hr, Hv.
  cbv iota in Hr, Hv. rewrite app_nil_r in Hr. done.
Qed.

Lemma page_when_every_pass_fails_witness :
  st_error [Txt no_medicines_message]
    ∈ trace (main (fun _ => Raised (ApiError (lit "unavailable"))) (Some []) true
               [0; 1; 2; 3; 4]%nat [])
  /\ value (main (fun _ => Raised (ApiError (lit "unavailable"))) (Some []) true
              [0; 1; 2; 3; 4]%nat []) = Ret tt.
Proof.
  destruct (page_when_every_pass_fails
              (fun _ => Raised (ApiError (lit "unavailable"))) []
              [0; 1; 2; 3; 4]%nat []) as (H1 & _ & _ & H4).
  - intros i _. by eexists.
  - by split.
Defined.

(** The requests and the result of a run whose pools complete every future
    once. *)
Lemma main_summary_perm svc (img : image) (ci cv : list nat) :
  let medicine_candidates :=
    extract_medicine_candidates (successful_interpretations svc img 5) in
  let medicine_groups := group_similar_medicines medicine_candidates in
  let verification_results := map (verification_entry svc) medicine_groups in
  ci ≡ₚ seq 0 5 -> cv ≡ₚ seq 0 (length medicine_groups) ->
  requests (trace (main svc (Some img) true ci cv))
  = map (interpretation_request img) (seq 0 5)
      ++ match medicine_candidates with
         | [] => []
         | _ :: _ => map verification_request medicine_groups
                       ++ [final_request verification_results]
         end
  /\ value (main svc (Some img) true ci cv)
     = match medicine_candidates with
       | [] => Ret tt
       | _ :: _ =>
           match svc (final_request verification_results) with
           | Returned _ => Ret tt
           | Raised e => Exc e
           end
       end.
Proof.
  cbv zeta. intros Hci Hcv.
  pose proof (main_summary svc img ci cv) as H. cbv zeta in H.
  rewrite (collected_interpretations_perm svc img ci Hci) in H.
  by rewrite (collected_verifications_in_place svc _ cv Hcv) in H.
Qed.

(** X10. The requests a run of the page issues and the way it ends do not
    depend on the order in which the calls of its two pools complete. *)
Theorem page_independent_of_completion_order svc (img : image)
    (ci cv ci' cv' : list nat) :
  let medicine_groups :=
    group_similar_medicines
      (extract_medicine_candidates (successful_interpretations svc img 5)) in
  ci ≡ₚ seq 0 5 -> ci' ≡ₚ seq 0 5 ->
  cv ≡ₚ seq 0 (length medicine_groups) -> cv' ≡ₚ seq 0 (length medicine_groups) ->
  requests (trace (main svc (Some img) true ci cv))
    = requests (trace (main svc (Some img) true ci' cv'))
  /\ value (main svc (Some img) true ci cv)
     = value (main svc (Some img) true ci' cv').
Proof.
  cbv zeta. intros Hci Hci' Hcv Hcv'.
  destruct (main_summary_perm svc img ci cv Hci Hcv) as [-> ->].
  by destruct (main_summary_perm svc img ci' cv' Hci' Hcv') as [-> ->].
Qed.

Lemma page_independent_of_completion_order_witness :
  requests (trace (main example_service (Some []) true [0; 1; 2; 3; 4]%nat [0; 1]%nat))
    = requests (trace (main example_service (Some []) true
                         [4; 2; 0; 1; 3]%nat [1; 0]%nat))
  /\ value (main example_service (Some []) true [0; 1; 2; 3; 4]%nat [0; 1]%nat)
     = value (main example_service (Some []) true [4; 2; 0; 1; 3]%nat [1; 0]%nat).
Proof.
  apply (page_independent_of_completion_order example_service []
           [0; 1; 2; 3; 4]%nat [0; 1]%nat [4; 2; 0; 1; 3]%nat [1; 0]%nat);
    apply (bool_decide_unpack _); by vm_compute.
Defined.

(** X11. The page issues no request to the model exactly when no image is
    uploaded or the button is not pressed; it then ends normally. *)
Theorem page_idle_issues_no_request svc (uploaded_file : option image)
    (button : bool) (ci cv : list nat) :
  (requests (trace (main svc uploaded_file button ci cv)) = []
   <-> uploaded_file = None \/ button = false)
  /\ (requests (trace (main svc uploaded_file button ci cv)) = [] ->
      value (main svc uploaded_file button ci cv) = Ret tt).
Proof.
  destruct uploaded_file as [img|]; [|by split; [split; [left|]|]].
  destruct button; [|by split; [split; [right|]|]].
  destruct (main_summary svc img ci cv) as [Hr _]. cbv zeta in Hr.
  rewrite Hr. split; [split|]; try done. by intros [|].
Qed.

(** The text for the final prompt is made of one block per entry. *)
Lemma formatted_results_fold (verification_results : list (Z * str)) (acc : str) :
  fold_left (fun formatted_results '(position, result) =>
      formatted_results
        ++ (nl ++ lit "--- Medicine Position " ++ str_of_int position
               ++ lit " ---" ++ nl)
        ++ (result ++ nl)
        ++ (repeat "-"%char 40 ++ nl))
    verification_results acc
  = acc ++ flat_map (fun entry : Z * str =>
        nl ++ lit "--- Medicine Position " ++ str_of_int entry.1 ++ lit " ---" ++ nl
           ++ entry.2 ++ nl ++ repeat "-"%char 40 ++ nl)
      verification_results.
Proof.
  revert acc. induction verification_results as [|[p r] l IH]; intros acc.
  - simpl. by rewrite app_nil_r.
  - cbn [fold_left flat_map fst snd]. rewrite IH. by rewrite <- !app_assoc.
Qed.

Lemma formatted_results_blocks (verification_results : list (Z * str)) :
  formatted_results_of verification_results
  = flat_map (fun entry : Z * str =>
        nl ++ lit "--- Medicine Position " ++ str_of_int entry.1 ++ lit " ---" ++ nl
           ++ entry.2 ++ nl ++ repeat "-"%char 40 ++ nl)
      verification_results.
Proof. unfold formatted_results_of. by rewrite formatted_results_fold. Qed.

(** X12. A request of the final synthesis, whenever the page issues one,
    is its last request; it is issued with the search tool and the
    temperature 0.1, and the text it puts in the prompt is made of one
    block per group, in ascending order of position, that carries the
    position and the answer of the verification of the group, or [Error: ]
    and the message of the exception when that verification raised. *)
Theorem final_request_carries_every_verification svc (img : image)
    (ci cv : list nat) (r : request) (formatted_results : str) :
  let medicine_groups :=
    group_similar_medicines
      (extract_medicine_candidates (successful_interpretations svc img 5)) in
  ci ≡ₚ seq 0 5 -> cv ≡ₚ seq 0 (length medicine_groups) ->
  r ∈ requests (trace (main svc (Some img) true ci cv)) ->
  req_contents r = final_prompt formatted_results ->
  last (requests (trace (main svc (Some img) true ci cv))) = Some r
  /\ req_search r = true
  /\ req_temperature r = 1
  /\ formatted_results
     = flat_map (fun g =>
           nl ++ lit "--- Medicine Position "
              ++ str_of_int (group_position g) ++ lit " ---" ++ nl
              ++ match svc (verification_request g) with
                 | Returned text => text
                 | Raised e => lit "Error: " ++ exn_str e
                 end
              ++ nl ++ repeat "-"%char 40 ++ nl)
         medicine_groups.
Proof.
  cbv zeta. intros Hci Hcv Hin Hr.
  destruct (main_summary_perm svc img ci cv Hci Hcv) as [Hreq _].
  cbv zeta in Hreq. rewrite Hreq in Hin |- *. clear Hreq.
  assert (forall l : list nat, r ∉ map (interpretation_request img) l) as Hi.
  { intros l Hl. apply list_elem_of_fmap in Hl as (i & -> & _). discriminate Hr. }
  assert (forall gs : list group, r ∉ map verification_request gs) as Hv.
  { intros gs Hl. apply list_elem_of_fmap in Hl as (g & -> & _). discriminate Hr. }
  destruct (extract_medicine_candidates (successful_interpretations svc img 5))
    as [|c cs].
  - rewrite app_nil_r in Hin. by apply Hi in Hin.
  - apply elem_of_app in Hin as [Hin|Hin]; [by apply Hi in Hin|].
    apply elem_of_app in Hin as [Hin|Hin]; [by apply Hv in Hin|].
    apply list_elem_of_singleton in Hin. subst r.
    rewrite !app_assoc, last_snoc. do 3 (split; [done|]).
    simpl in Hr. injection Hr as <-. rewrite formatted_results_blocks.
    rewrite !flat_map_concat_map, map_map. f_equal.
Qed.

Lemma final_request_carries_every_verification_witness :
  last (requests (trace (main example_service (Some []) true
                           [4; 2; 0; 1; 3]%nat [1; 0]%nat)))
  = Some (Request
            (final_prompt
               (nl ++ lit "--- Medicine Position 1 ---" ++ nl
                   ++ lit "Napa 500 mg" ++ nl ++ repeat "-"%char 40 ++ nl
                   ++ nl ++ lit "--- Medicine Position 2 ---" ++ nl
                   ++ lit "Error: quota exceeded" ++ nl ++ repeat "-"%char 40 ++ nl))
            true 1).
Proof.
  apply (final_request_carries_every_verification example_service []
           [4; 2; 0; 1; 3]%nat [1; 0]%nat _
           (nl ++ lit "--- Medicine Position 1 ---" ++ nl
               ++ lit "Napa 500 mg" ++ nl ++ repeat "-"%char 40 ++ nl
               ++ nl ++ lit "--- Medicine Position 2 ---" ++ nl
               ++ lit "Error: quota exceeded" ++ nl ++ repeat "-"%char 40 ++ nl)).
  - apply (bool_decide_unpack _); by vm_compute.
  - apply (bool_decide_unpack _); by vm_compute.
  - vm_compute. present.
  - reflexivity.
Defined.

(** ** The fan-out of the asyncio variants *)

Lemma value_gather {A} (tasks : list (M A)) (l : list A) :
  value (gather tasks) = Ret l <-> Forall2 (fun task a => value task = Ret a) tasks l.
Proof.
  revert l. induction tasks as [|[t r] tasks IH]; intros l; simpl.
  - split.
    + intros [= <-]. constructor.
    + intros H. by inversion H.
  - destruct (gather tasks) as [ts rs] eqn:E. rewrite value_pair in *.
    split.
    + destruct r as [a|e]; [|done]. destruct rs as [l'|e]; [|done].
      intros [= <-]. constructor; [done|]. by apply IH.
    + intros H. inversion H as [|? a ? l' Ha Hl]; subst.
      rewrite value_pair in Ha. subst r.
      apply IH in Hl. by rewrite Hl.
Qed.

Lemma value_gather_exc {A} (tasks : list (M A)) e :
  value (gather tasks) = Exc e -> exists task, task ∈ tasks /\ value task = Exc e.
Proof.
  induction tasks as [|[t r] tasks IH]; simpl; [done|].
  destruct (gather tasks) as [ts rs] eqn:E. rewrite value_pair in *.
  destruct r as [a|e'].
  - destruct rs as [l'|e']; [done|]. intros [= ->].
    destruct (IH eq_refl) as (task & Hin & Hv).
    exists task. split; [by apply list_elem_of_further|done].
  - intros [= ->]. exists (t, Exc e). split; [apply list_elem_of_here|done].
Qed.

(** X13. In the first program of [v2_adding_google_search_on_v1.py] the
    interpretation fan-out returns a list exactly when every call returns,
    and the list holds the texts of all the passes in the order of the
    passes (none for zero passes); when it raises, it raises the exception
    of one of its calls: a failing pass is not dropped, it makes the whole
    fan-out fail. *)
Theorem asyncio_fan_out_is_all_or_nothing svc (img : image) (n : nat) :
  (forall texts,
     value (V2.run_parallel_interpretations svc img n) = Ret texts
     <-> Forall2 (fun i text => svc (interpretation_request img i) = Returned text)
                 (seq 0 n) texts)
  /\ (forall e,
        value (V2.run_parallel_interpretations svc img n) = Exc e ->
        exists i, (i < n)%nat /\ svc (interpretation_request img i) = Raised e).
Proof.
  unfold V2.run_parallel_interpretations, V2.generate_interpretation.
  rewrite map_map. split.
  - intros texts. rewrite value_gather.
    generalize (seq 0 n) as js. intros js. revert texts.
    induction js as [|j js IH]; intros texts; simpl.
    + split; intros H; inversion H; constructor.
    + split; intros H; inversion H as [|? a ? l' Ha Hl]; subst; constructor;
        try (by apply IH).
      * rewrite call_model_spec, value_pair in Ha.
        unfold interpretation_request. by destruct (svc _) as [text|e]; [injection Ha as ->|].
      * rewrite call_model_spec, value_pair.
        unfold interpretation_request in Ha. by rewrite Ha.
  - intros e He. apply value_gather_exc in He as (task & Hin & Hv).
    apply list_elem_of_In, in_map_iff in Hin as (i & <- & Hi).
    apply in_seq in Hi. exists i. split; [lia|].
    rewrite call_model_spec, value_pair in Hv.
    unfold interpretation_request. by destruct (svc _) as [text|e']; [|injection Hv as ->].
Qed.

(** ** Names from a consolidated list *)

Section MatcherSoundness.
Context {R : Type}.

Lemma one_sound p s (k : str -> option R) x :
  one p s k = Some x -> exists c s', s = c :: s' /\ p c = true /\ k s' = Some x.
Proof.
  destruct s as [|c s']; simpl; [done|].
  destruct (p c) eqn:E; [|done]. eauto.
Qed.

Lemma literal_sound w s (k : str -> option R) x :
  literal w s k = Some x -> exists s', s = w ++ s' /\ k s' = Some x.
Proof.
  revert s. induction w as [|a w IH]; intros s; simpl; [eauto|].
  intros H. apply one_sound in H as (c & s' & -> & Hc & H).
  apply is_char_iff in Hc as ->.
  apply IH in H as (s'' & -> & H). eauto.
Qed.

Lemma star_greedy_sound p s (k : str -> str -> option R) x :
  star_greedy p s k = Some x ->
  exists m r, s = m ++ r /\ all_of p m /\ k m r = Some x.
Proof.
  revert k. induction s as [|c s IH]; intros k; simpl.
  - intros H. by exists [], [].
  - destruct (p c) eqn:E; [|intros H; by exists [], (c :: s)].
    destruct (star_greedy p s (fun m r => k (c :: m) r)) as [y|] eqn:Ey.
    + intros [= ->]. apply IH in Ey as (m & r & -> & Hm & Hk).
      exists (c :: m), r. split; [done|]. split; [by apply all_of_cons|done].
    + intros H. by exists [], (c :: s).
Qed.

Lemma plus_greedy_sound p s (k : str -> str -> option R) x :
  plus_greedy p s k = Some x ->
  exists m r, s = m ++ r /\ m <> [] /\ all_of p m /\ k m r = Some x.
Proof.
  destruct s as [|c s]; simpl; [done|].
  destruct (p c) eqn:E; [|done]. intros H.
  apply star_greedy_sound in H as (m & r & -> & Hm & Hk).
  exists (c :: m), r. split; [done|]. split; [done|].
  split; [by apply all_of_cons|done].
Qed.

(** When the rest of the pattern accepts anything, a greedy repetition
    keeps the whole run. *)
Lemma star_greedy_total p s (k : str -> str -> option R) :
  (forall m r, k m r <> None) ->
  star_greedy p s k = k (take_while p s) (drop_while p s).
Proof.
  revert k. induction s as [|c s IH]; intros k Hk; simpl; [done|].
  destruct (p c) eqn:E; [|done].
  rewrite IH by (intros; apply Hk).
  destruct (k (c :: take_while p s) (drop_while p s)) eqn:Ek; [done|].
  by apply Hk in Ek.
Qed.
End MatcherSoundness.

(** A match of the pattern: the name is a non-empty run of characters
    other than the line feed and the opening parenthesis. *)
Lemma medicine_name_re_sound s g rest :
  medicine_name_re s = Some (g, rest) -> g <> [] /\ all_of name_char g.
Proof.
  unfold medicine_name_re. intros H.
  apply literal_sound in H as (s1 & _ & H).
  apply plus_greedy_sound in H as (_ & s2 & _ & _ & _ & H).
  apply one_sound in H as (_ & s3 & _ & _ & H).
  apply star_greedy_sound in H as (_ & s4 & _ & _ & H).
  apply one_sound in H as (_ & s5 & _ & _ & H).
  apply star_greedy_sound in H as (_ & s6 & _ & _ & H).
  apply literal_sound in H as (s7 & _ & H).
  apply plus_greedy_sound in H as (m & r & _ & Hne & Hm & H).
  by injection H as <- <-.
Qed.

Lemma findall_from_names skip s :
  Forall (fun g => g <> [] /\ all_of name_char g) (findall_from skip s).
Proof.
  revert skip. induction s as [|c s IH]; intros skip; simpl; [constructor|].
  destruct skip as [|skip]; [|apply IH].
  destruct (medicine_name_re (c :: s)) as [[g rest]|] eqn:E; [|apply IH].
  constructor; [|apply IH]. by apply (medicine_name_re_sound (c :: s) g rest).
Qed.

(** X14. Every name taken from a consolidated list is stripped and holds
    neither a line feed nor an opening parenthesis. *)
Theorem consolidated_names_are_clean (consolidated_text : str) :
  Forall (fun medicine_name =>
            strip medicine_name = medicine_name
            /\ all_of name_char medicine_name)
         (extract_medicines_from_consolidated consolidated_text).
Proof.
  unfold extract_medicines_from_consolidated. apply Forall_map.
  eapply Forall_impl; [apply findall_from_names|].
  intros g [_ Hg]. split; [apply strip_idem|by apply all_of_strip].
Qed.

Lemma plus_greedy_total {R} p s (k : str -> str -> option R) :
  (forall m r, k m r <> None) ->
  plus_greedy p s k =
    match take_while p s with
    | [] => None
    | m => k m (drop_while p s)
    end.
Proof.
  intros Hk. destruct s as [|c s]; simpl; [done|].
  destruct (p c) eqn:E; [|done].
  by rewrite star_greedy_total by (intros; apply Hk).
Qed.

(** The pattern on the heading and the name line of an entry. *)
Lemma medicine_name_re_entry number nm d rest :
  0 <= number -> nm <> [] -> all_of name_char nm -> name_char d = false ->
  medicine_name_re
    (lit "Medicine " ++ str_of_int number ++ lit ":" ++ nl
       ++ lit "- Name: " ++ nm ++ d :: rest)
  = Some (nm, d :: rest).
Proof.
  intros Hn Hne Hnm Hd. destruct (str_of_int_digits number Hn) as [Hdne Hdd].
  unfold medicine_name_re.
  change (lit "Medicine " ++ str_of_int number ++ lit ":" ++ nl
            ++ lit "- Name: " ++ nm ++ d :: rest)
    with (lit "Medicine " ++ str_of_int number ++ ":"%char :: newline
            :: lit "- Name: " ++ nm ++ d :: rest).
  cbn [literal lit list_ascii_of_string one app is_char Ascii.eqb Bool.eqb].
  rewrite plus_greedy_max.
  - rewrite take_while_stop, drop_while_stop by done.
    destruct (str_of_int number) as [|d0 ds]; [done|].
    cbn -[plus_greedy name_char].
    rewrite plus_greedy_total by done.
    rewrite take_while_stop, drop_while_stop by done.
    by destruct nm.
  - intros m c r Hc. simpl. destruct (is_char ":" c) eqn:E; [|done].
    apply is_char_iff in E. by subst c.
Qed.

Lemma findall_from_skip a r :
  findall_from (length a) (a ++ r) = findall_from 0 r.
Proof. induction a as [|x a IH]; simpl; [by destruct r|done]. Qed.

Lemma medicine_name_re_needs_m c s :
  not_capital_m c = true -> medicine_name_re (c :: s) = None.
Proof.
  unfold not_capital_m, medicine_name_re. simpl. by destruct (is_char "M" c).
Qed.

(** No match starts in a text without a capital M. *)
Lemma findall_from_no_m t r :
  all_of not_capital_m t -> findall_from 0 (t ++ r) = findall_from 0 r.
Proof.
  induction t as [|c t IH]; intros Ht; [done|].
  apply all_of_cons in Ht as [Hc Ht].
  change ((c :: t) ++ r) with (c :: t ++ r).
  cbn [findall_from]. rewrite (medicine_name_re_needs_m c _ Hc). by apply IH.
Qed.

Lemma findall_from_entry number nm details rest :
  0 <= number -> nm <> [] -> all_of name_char nm -> all_of not_capital_m details ->
  findall_from 0 (consolidated_entry (number, nm, details) ++ rest)
  = nm :: findall_from 0 rest.
Proof.
  intros Hn Hne Hnm Hd. unfold consolidated_entry. simpl fst. simpl snd.
  set (after := newline :: details ++ rest).
  set (matched := lit "edicine " ++ str_of_int number ++ lit ":" ++ nl
                    ++ lit "- Name: " ++ nm).
  assert ((lit "Medicine " ++ str_of_int number ++ lit ":" ++ nl
              ++ lit "- Name: " ++ nm ++ nl ++ details) ++ rest
          = "M"%char :: matched ++ after) as ->.
  { unfold matched, after. by rewrite <- !app_assoc. }
  assert (medicine_name_re ("M"%char :: matched ++ after) = Some (nm, after)) as E.
  { etransitivity;
      [|apply (medicine_name_re_entry number nm newline (details ++ rest)); done].
    f_equal. unfold matched, after. by rewrite <- !app_assoc. }
  cbn [findall_from]. rewrite E.
  replace (length ("M"%char :: matched ++ after) - length after - 1)%nat
    with (length matched)
    by (change (length ("M"%char :: matched ++ after))
          with (S (length (matched ++ after)));
        rewrite length_app; lia).
  rewrite findall_from_skip. f_equal.
  by apply (findall_from_no_m (newline :: details)), all_of_cons.
Qed.

(** X15. A consolidated list written as the consolidation prompt asks
    (for each medicine the heading [Medicine <n>:], the line
    [- Name: <name>] and further lines) gives back the names, stripped, in
    order, when no name is empty or holds a line feed or an opening
    parenthesis and the further lines hold no capital M. *)
Theorem consolidated_names_round_trip (entries : list (Z * str * str)) :
  Forall (fun entry =>
            0 <= entry.1.1 /\ entry.1.2 <> [] /\ all_of name_char entry.1.2
            /\ all_of not_capital_m entry.2) entries ->
  extract_medicines_from_consolidated (consolidated_list entries)
  = map (fun entry => strip entry.1.2) entries.
Proof.
  unfold extract_medicines_from_consolidated, consolidated_list.
  induction 1 as [|[[number nm] details] entries (Hn & Hne & Hnm & Hd) _ IH];
    [done|].
  cbn [flat_map]. simpl in Hn, Hne, Hnm, Hd.
  rewrite findall_from_entry by done. cbn [map]. by rewrite IH.
Qed.

Lemma consolidated_names_round_trip_witness :
  extract_medicines_from_consolidated
    (consolidated_list
       [(1, lit "Napa Extra ", lit "- Dosage: 1+0+1" ++ nl ++ nl);
        (2, lit "Seclo 20", lit "- Dosage: 0+0+1" ++ nl)])
  = [lit "Napa Extra"; lit "Seclo 20"].
Proof.
  apply (consolidated_names_round_trip
           [(1, lit "Napa Extra ", lit "- Dosage: 1+0+1" ++ nl ++ nl);
            (2, lit "Seclo 20", lit "- Dosage: 0+0+1" ++ nl)]).
  repeat constructor; simpl; try lia; try discriminate; reflexivity.
Defined.
